(** * Snowflake: a shallow embedding of gophercord/snowflake

    The Go package manipulates Discord snowflake identifiers: a [uint64]
    split into a timestamp, a worker id, a process id and a sequence number,
    together with a decimal and a JSON text codec.

    Go values are embedded as follows.
    - fixed-width integers are [Z], every conversion and every operation that
      can leave the width is followed by its wrap-around, written out;
    - a Go [string] and a [[]byte] are both a [list ascii] (a Go string is an
      immutable byte sequence, and [string(b)] copies the bytes);
    - the package-level variables [Epoch] and [AllowUnquoted] are the fields of
      a [Config] record that every function reading them takes as argument;
    - a [(T, error)] result is a pair of the value and an [option] error,
      [None] standing for [nil]. *)

From Stdlib Require Import ZArith Ascii String List Bool Lia.
Import ListNotations.

Local Open Scope Z_scope.

(** ** Fixed-width integers *)

Module GoInt.

Definition uint8 (z : Z) : Z := z mod 2 ^ 8.
Definition uint16 (z : Z) : Z := z mod 2 ^ 16.
Definition uint64 (z : Z) : Z := z mod 2 ^ 64.
Definition int32 (z : Z) : Z := (z + 2 ^ 31) mod 2 ^ 32 - 2 ^ 31.
Definition int64 (z : Z) : Z := (z + 2 ^ 63) mod 2 ^ 64 - 2 ^ 63.

Definition is_uint8 (z : Z) : Prop := 0 <= z < 2 ^ 8.
Definition is_uint64 (z : Z) : Prop := 0 <= z < 2 ^ 64.
Definition is_int64 (z : Z) : Prop := - 2 ^ 63 <= z < 2 ^ 63.

Definition maxUint64 : Z := 2 ^ 64 - 1.

End GoInt.
Import GoInt.

(** ** Bytes and strings *)

Definition gostring : Type := list ascii.

Definition code (c : ascii) : Z := Z.of_N (N_of_ascii c).
Definition byte (z : Z) : ascii := ascii_of_N (Z.to_N (z mod 2 ^ 8)).
Definition bytes_of (s : string) : gostring := list_ascii_of_string s.

(* s[i:j] *)
Definition slice (s : gostring) (i j : nat) : gostring := firstn (j - i) (skipn i s).

(* position of the first byte equal to c *)
Fixpoint index (s : gostring) (c : ascii) : option nat :=
  match s with
  | [] => None
  | x :: s' => if Ascii.eqb x c then Some O else option_map S (index s' c)
  end.

Definition contains (s : gostring) (c : ascii) : bool :=
  match index s c with Some _ => true | None => false end.

(* bytes.Equal *)
Definition bytes_Equal (a b : gostring) : bool :=
  if list_eq_dec ascii_dec a b then true else false.

(** ** The package-level variables *)

Record Config : Type := mkConfig {
  AllowUnquoted : bool;
  Epoch : Z  (* uint64 *)
}.

Definition defaultConfig : Config := mkConfig true 1420070400000.

(** ** time.Time, as far as the package reads it

    The package only calls [t.UnixMilli()], which the standard library
    computes as [t.unixSec()*1e3 + int64(t.nsec())/1e6] in [int64]. *)

Module GoTime.

Record Time : Type := mkTime {
  unixSec : Z;  (* int64 seconds since 1970-01-01T00:00:00Z *)
  nsec : Z      (* int32 nanoseconds within the second, in [0, 999999999] *)
}.

Definition UnixMilli (t : Time) : Z :=
  int64 (int64 (unixSec t * 1000) + nsec t / 1000000).

(* time.UnixMilli(msec) = Unix(msec/1e3, (msec%1e3)*1e6), Go's / and %
   truncating towards zero, then normalised to a nanosecond in [0, 1e9). *)
Definition ofUnixMilli (msec : Z) : Time :=
  let sec := Z.quot msec 1000 in
  let ns := Z.rem msec 1000 * 1000000 in
  if ns <? 0 then mkTime (sec - 1) (ns + 1000000000) else mkTime sec ns.

End GoTime.

(** ** The value model *)

Definition Snowflake : Type := Z.  (* uint64 *)

Definition UnixMilli (cfg : Config) (s : Snowflake) : Z :=
  uint64 (Z.shiftr s 22 + Epoch cfg).

Definition Unix (cfg : Config) (s : Snowflake) : Z :=
  uint64 (Z.shiftr s 22 + Epoch cfg) / 1000.

Definition WorkerID (s : Snowflake) : Z :=
  uint8 (Z.shiftr (Z.land s 0x3E0000) 17).

Definition ProcessID (s : Snowflake) : Z :=
  uint8 (Z.shiftr (Z.land s 0x1F000) 12).

Definition Sequence (s : Snowflake) : Z :=
  uint16 (Z.land s 0xFFF).

Definition Value (s : Snowflake) : Z := s.

(* i < 64 && s&(1<<i) != 0, the constant 1 taking the type of s *)
Definition Bit (s : Snowflake) (i : Z) : bool :=
  (i <? 64) && negb (Z.land s (uint64 (Z.shiftl 1 i)) =? 0).

Definition ParseTime (cfg : Config) (t : GoTime.Time) : Snowflake :=
  uint64 (int64 (Z.shiftl (int64 (GoTime.UnixMilli t - int64 (Epoch cfg))) 22)).

Definition New : Snowflake := 0.

(** ** unicode/utf8, as far as strconv's quoting and unquoting call it *)

Module Utf8.

Definition RuneError : Z := 0xFFFD.
Definition RuneSelf : Z := 0x80.
Definition MaxRune : Z := 0x10FFFF.
Definition surrogateMin : Z := 0xD800.
Definition surrogateMax : Z := 0xDFFF.

Definition tx : Z := 0x80.
Definition t2 : Z := 0xC0.
Definition t3 : Z := 0xE0.
Definition t4 : Z := 0xF0.
Definition maskx : Z := 0x3F.
Definition mask2 : Z := 0x1F.
Definition mask3 : Z := 0x0F.
Definition mask4 : Z := 0x07.
Definition rune1Max : Z := 2 ^ 7 - 1.
Definition rune2Max : Z := 2 ^ 11 - 1.
Definition rune3Max : Z := 2 ^ 16 - 1.
Definition locb : Z := 0x80.
Definition hicb : Z := 0xBF.

Definition xx : Z := 0xF1.
Definition as_ : Z := 0xF0.
Definition s1 : Z := 0x02.
Definition s2 : Z := 0x13.
Definition s3 : Z := 0x03.
Definition s4 : Z := 0x23.
Definition s5 : Z := 0x34.
Definition s6 : Z := 0x04.
Definition s7 : Z := 0x44.

(* the table first[256], by ranges of the index *)
Definition first (b : Z) : Z :=
  if b <? 0x80 then as_
  else if b <? 0xC2 then xx
  else if b <? 0xE0 then s1
  else if b =? 0xE0 then s2
  else if b <? 0xED then s3
  else if b =? 0xED then s4
  else if b <? 0xF0 then s3
  else if b =? 0xF0 then s5
  else if b <? 0xF4 then s6
  else if b =? 0xF4 then s7
  else xx.

(* the table acceptRanges[16]: entries 5..15 are the zero value *)
Definition acceptRanges (i : Z) : Z * Z :=
  if i =? 0 then (locb, hicb)
  else if i =? 1 then (0xA0, hicb)
  else if i =? 2 then (locb, 0x9F)
  else if i =? 3 then (0x90, hicb)
  else if i =? 4 then (locb, 0x8F)
  else (0, 0).

Definition ValidRune (r : Z) : bool :=
  if (0 <=? r) && (r <? surrogateMin) then true
  else if (surrogateMax <? r) && (r <=? MaxRune) then true
  else false.

(* returns (r, size) *)
Definition DecodeRuneInString (s : gostring) : Z * nat :=
  match s with
  | [] => (RuneError, 0%nat)
  | c0 :: rest =>
    let n := length s in
    let x := first (code c0) in
    if as_ <=? x then
      let mask := Z.shiftr (int32 (Z.shiftl x 31)) 31 in
      (Z.lor (Z.land (code c0) (Z.lnot mask)) (Z.land RuneError mask), 1%nat)
    else
      let sz := Z.to_nat (Z.land x 7) in
      let accept := acceptRanges (Z.shiftr x 4) in
      if (n <? sz)%nat then (RuneError, 1%nat) else
      match rest with
      | [] => (RuneError, 1%nat)
      | c1 :: rest1 =>
        if (code c1 <? fst accept) || (snd accept <? code c1) then (RuneError, 1%nat)
        else if (sz <=? 2)%nat then
          (Z.lor (Z.shiftl (Z.land (code c0) mask2) 6) (Z.land (code c1) maskx), 2%nat)
        else
        match rest1 with
        | [] => (RuneError, 1%nat)
        | c2 :: rest2 =>
          if (code c2 <? locb) || (hicb <? code c2) then (RuneError, 1%nat)
          else if (sz <=? 3)%nat then
            (Z.lor (Z.lor (Z.shiftl (Z.land (code c0) mask3) 12)
                          (Z.shiftl (Z.land (code c1) maskx) 6))
                   (Z.land (code c2) maskx), 3%nat)
          else
          match rest2 with
          | [] => (RuneError, 1%nat)
          | c3 :: _ =>
            if (code c3 <? locb) || (hicb <? code c3) then (RuneError, 1%nat)
            else
              (Z.lor (Z.lor (Z.lor (Z.shiftl (Z.land (code c0) mask4) 18)
                                   (Z.shiftl (Z.land (code c1) maskx) 12))
                            (Z.shiftl (Z.land (code c2) maskx) 6))
                     (Z.land (code c3) maskx), 4%nat)
          end
        end
      end
  end.

(* the loop of ValidString over the bytes not yet visited; each round
   visits at least one byte, so [fuel] = their number is enough *)
Fixpoint validLoop (fuel : nat) (s : gostring) : bool :=
  match s with
  | [] => true
  | si :: rest =>
    match fuel with
    | O => false
    | S fuel' =>
      if code si <? RuneSelf then validLoop fuel' rest
      else
        let x := first (code si) in
        if x =? xx then false
        else
          let size := Z.to_nat (Z.land x 7) in
          if (length s <? size)%nat then false
          else
            let accept := acceptRanges (Z.shiftr x 4) in
            let c1 := code (nth 1 s zero) in
            if (c1 <? fst accept) || (snd accept <? c1) then false
            else if (size =? 2)%nat then validLoop fuel' (skipn size s)
            else
              let c2 := code (nth 2 s zero) in
              if (c2 <? locb) || (hicb <? c2) then false
              else if (size =? 3)%nat then validLoop fuel' (skipn size s)
              else
                let c3 := code (nth 3 s zero) in
                if (c3 <? locb) || (hicb <? c3) then false
                else validLoop fuel' (skipn size s)
    end
  end.

Definition ValidString (s : gostring) : bool := validLoop (length s) s.

Definition appendRuneNonASCII (p : gostring) (r : Z) : gostring :=
  let i := r mod 2 ^ 32 in
  if i <=? rune2Max then
    p ++ [byte (Z.lor t2 (Z.shiftr r 6)); byte (Z.lor tx (Z.land r maskx))]
  else
    let three (r : Z) :=
      p ++ [byte (Z.lor t3 (Z.shiftr r 12));
            byte (Z.lor tx (Z.land (Z.shiftr r 6) maskx));
            byte (Z.lor tx (Z.land r maskx))] in
    if (MaxRune <? i) || ((surrogateMin <=? i) && (i <=? surrogateMax)) then
      three RuneError
    else if i <=? rune3Max then three r
    else
      p ++ [byte (Z.lor t4 (Z.shiftr r 18));
            byte (Z.lor tx (Z.land (Z.shiftr r 12) maskx));
            byte (Z.lor tx (Z.land (Z.shiftr r 6) maskx));
            byte (Z.lor tx (Z.land r maskx))].

Definition AppendRune (p : gostring) (r : Z) : gostring :=
  if r mod 2 ^ 32 <=? rune1Max then p ++ [byte r]
  else appendRuneNonASCII p r.

End Utf8.

(** ** strconv, as far as the package calls it *)

Module Strconv.

(* the sentinel errors *)
Inductive Err : Type := ErrSyntax | ErrRange.

(* *strconv.NumError *)
Record NumError : Type := mkNumError {
  Func : string;
  Num : gostring;
  Err_ : Err
}.

Definition syntaxError (fn : string) (str : gostring) : NumError :=
  mkNumError fn str ErrSyntax.
Definition rangeError (fn : string) (str : gostring) : NumError :=
  mkNumError fn str ErrRange.

Definition lower (c : Z) : Z := Z.lor c 0x20.

(** *** ParseUint(s, 10, 64)

    The package calls ParseUint with base 10 and bitSize 64 only, so the
    branches for base 0 (prefixes and underscores) and for an invalid base
    or bitSize cannot be taken; this is the function at these arguments. *)

Definition base : Z := 10.
Definition bitSize : Z := 64.
Definition cutoff : Z := maxUint64 / 10 + 1.
Definition maxVal : Z := uint64 (uint64 (Z.shiftl 1 bitSize) - 1).

(* the body of [for _, c := range []byte(s)], n the accumulator *)
Fixpoint parseLoop (s0 : gostring) (n : Z) (s : gostring) : Z * option NumError :=
  match s with
  | [] => (n, None)
  | ch :: rest =>
    let c := code ch in
    let d :=
      if (48 <=? c) && (c <=? 57) then Some (uint8 (c - 48))
      else if (97 <=? lower c) && (lower c <=? 122) then Some (uint8 (lower c - 97 + 10))
      else None in
    match d with
    | None => (0, Some (syntaxError "ParseUint" s0))
    | Some d =>
      if uint8 base <=? d then (0, Some (syntaxError "ParseUint" s0))
      else if cutoff <=? n then (maxVal, Some (rangeError "ParseUint" s0))
      else
        let n := uint64 (n * base) in
        let n1 := uint64 (n + d) in
        if (n1 <? n) || (maxVal <? n1) then (maxVal, Some (rangeError "ParseUint" s0))
        else parseLoop s0 n1 rest
    end
  end.

Definition ParseUint (s : gostring) : Z * option NumError :=
  match s with
  | [] => (0, Some (syntaxError "ParseUint" s))
  | _ => parseLoop s 0 s
  end.

(** *** FormatUint(i, 10) *)

Definition digits : gostring := bytes_of "0123456789abcdefghijklmnopqrstuvwxyz".

Definition smallsString : gostring :=
  bytes_of ("00010203040506070809" ++ "10111213141516171819" ++
            "20212223242526272829" ++ "30313233343536373839" ++
            "40414243444546474849" ++ "50515253545556575859" ++
            "60616263646566676869" ++ "70717273747576777879" ++
            "80818283848586878889" ++ "90919293949596979899")%string.

Definition nSmalls : Z := 100.

Definition at_ (s : gostring) (i : Z) : ascii := nth (Z.to_nat i) s zero.

Definition small (i : Z) : gostring :=
  if i <? 10 then slice digits (Z.to_nat i) (Z.to_nat (i + 1))
  else slice smallsString (Z.to_nat (i * 2)) (Z.to_nat (i * 2 + 2)).

(* [for us >= 100 {...}] of formatBits in base 10; [a] is the part a[i:] of
   the buffer already written.  Every round divides us by 100. *)
Fixpoint formatLoop (fuel : nat) (us : Z) (a : gostring) : Z * gostring :=
  if 100 <=? us then
    match fuel with
    | O => (us, a)
    | S fuel' =>
      let is_ := us mod 100 * 2 in
      let us' := us / 100 in
      formatLoop fuel' us' (at_ smallsString is_ :: at_ smallsString (is_ + 1) :: a)
    end
  else (us, a).

Definition formatBits10 (u : Z) : gostring :=
  let '(us, a) := formatLoop (Z.to_nat (Z.log2 u)) u [] in
  let is_ := us * 2 in
  let a := at_ smallsString (is_ + 1) :: a in
  if 10 <=? us then at_ smallsString is_ :: a else a.

Definition FormatUint (i : Z) : gostring :=
  if i <? nSmalls then small i else formatBits10 i.

(** *** Unquote *)

Definition unhex (b : ascii) : Z * bool :=
  let c := code b in
  if (48 <=? c) && (c <=? 57) then (c - 48, true)
  else if (97 <=? c) && (c <=? 102) then (c - 97 + 10, true)
  else if (65 <=? c) && (c <=? 70) then (c - 65 + 10, true)
  else (0, false).

(* for j := 0; j < n; j++ { x, ok := unhex(s[j]); ...; v = v<<4 | x } *)
Fixpoint hexLoop (n : nat) (s : gostring) (v : Z) : option Z :=
  match n with
  | O => Some v
  | S n' =>
    match s with
    | [] => None
    | b :: s' =>
      let '(x, ok) := unhex b in
      if ok then hexLoop n' s' (Z.lor (int32 (Z.shiftl v 4)) x) else None
    end
  end.

(* for j := 0; j < 2; j++ { x := rune(s[j]) - '0'; ...; v = (v << 3) | x } *)
Fixpoint octLoop (n : nat) (s : gostring) (v : Z) : option Z :=
  match n with
  | O => Some v
  | S n' =>
    match s with
    | [] => None
    | b :: s' =>
      let x := code b - 48 in
      if (x <? 0) || (7 <? x) then None
      else octLoop n' s' (Z.lor (Z.shiftl v 3) x)
    end
  end.

(* (value, multibyte, tail), or None for the error ErrSyntax *)
Definition UnquoteChar (s : gostring) (quote : ascii) : option (Z * bool * gostring) :=
  match s with
  | [] => None
  | c0 :: s1 =>
    let c := code c0 in
    if Ascii.eqb c0 quote && ((code quote =? 39) || (code quote =? 34)) then None
    else if Utf8.RuneSelf <=? c then
      let '(r, size) := Utf8.DecodeRuneInString s in
      Some (r, true, skipn size s)
    else if negb (c =? 92) then Some (c, false, s1)
    else
      match s1 with
      | [] => None
      | c1 :: s =>
        let c := code c1 in
        if c =? 97 then Some (7, false, s)         (* \a *)
        else if c =? 98 then Some (8, false, s)    (* \b *)
        else if c =? 102 then Some (12, false, s)  (* \f *)
        else if c =? 110 then Some (10, false, s)  (* \n *)
        else if c =? 114 then Some (13, false, s)  (* \r *)
        else if c =? 116 then Some (9, false, s)   (* \t *)
        else if c =? 118 then Some (11, false, s)  (* \v *)
        else if (c =? 120) || (c =? 117) || (c =? 85) then  (* \x \u \U *)
          let n := if c =? 120 then 2%nat else if c =? 117 then 4%nat else 8%nat in
          if (length s <? n)%nat then None
          else
            match hexLoop n s 0 with
            | None => None
            | Some v =>
              let s := skipn n s in
              if c =? 120 then Some (v, false, s)
              else if negb (Utf8.ValidRune v) then None
              else Some (v, true, s)
            end
        else if (48 <=? c) && (c <=? 55) then
          let v := c - 48 in
          if (length s <? 2)%nat then None
          else
            match octLoop 2 s v with
            | None => None
            | Some v =>
              let s := skipn 2 s in
              if 255 <? v then None else Some (v, false, s)
            end
        else if c =? 92 then Some (92, false, s)
        else if (c =? 39) || (c =? 34) then
          if negb (Ascii.eqb c1 quote) then None else Some (c, false, s)
        else None
      end
  end.

(* the loop [for len(in) > 0 && in[0] != quote] of unquote together with
   the check for the terminating quote that follows it: (buf, rest), or
   None for ErrSyntax.  Every round consumes at least one byte of [in]. *)
Fixpoint unquoteLoop (fuel : nat) (quote : ascii) (in_ buf : gostring)
  : option (gostring * gostring) :=
  let finish (in_ buf : gostring) :=
    match in_ with
    | c :: rest => if Ascii.eqb c quote then Some (buf, rest) else None
    | [] => None
    end in
  match in_ with
  | [] => finish in_ buf
  | c :: _ =>
    if Ascii.eqb c quote then finish in_ buf
    else
      match fuel with
      | O => None
      | S fuel' =>
        match UnquoteChar in_ quote with
        | None => None
        | Some (r, multibyte, rem) =>
          if code c =? 10 then None
          else
            let buf :=
              if (r <? Utf8.RuneSelf) || negb multibyte then buf ++ [byte r]
              else Utf8.AppendRune buf r in
            if code quote =? 39 then finish rem buf
            else unquoteLoop fuel' quote rem buf
        end
      end
  end.

(* unquote(in, true): (out, rem, err) *)
Definition unquote (in_ : gostring) : gostring * gostring * option Err :=
  if (length in_ <? 2)%nat then ([], in_, Some ErrSyntax)
  else
    match in_ with
    | [] => ([], in_, Some ErrSyntax)
    | quote :: in1 =>
      match index in1 quote with
      | None => ([], in_, Some ErrSyntax)
      | Some e =>
        let end_ := (e + 2)%nat in
        if code quote =? 96 then
          if negb (contains (firstn end_ in_) (byte 13)) then
            (slice in_ 1 (end_ - 1), skipn end_ in_, None)
          else
            (filter (fun c => negb (code c =? 13)) (slice in_ 1 (end_ - 1)),
             skipn end_ in_, None)
        else if (code quote =? 34) || (code quote =? 39) then
          let valid :=
            if negb (contains (firstn end_ in_) (byte 92))
               && negb (contains (firstn end_ in_) (byte 10)) then
              if code quote =? 34 then Utf8.ValidString (slice in_ 1 (end_ - 1))
              else
                let '(r, n) := Utf8.DecodeRuneInString (slice in_ 1 (end_ - 1)) in
                ((1 + n + 1 =? end_)%nat
                 && (negb (r =? Utf8.RuneError) || negb (n =? 1)%nat))
            else false in
          if valid then (slice (firstn end_ in_) 1 (end_ - 1), skipn end_ in_, None)
          else
            match unquoteLoop (length in1) quote in1 [] with
            | None => ([], in_, Some ErrSyntax)
            | Some (buf, rest) => (buf, rest, None)
            end
        else ([], in_, Some ErrSyntax)
      end
    end.

Definition Unquote (s : gostring) : gostring * option Err :=
  let '(out, rem, err) := unquote s in
  if (0 <? length rem)%nat then ([], Some ErrSyntax) else (out, err).

(** *** Quote *)

Section Quoting.

(* Above Latin-1, IsPrint is a binary search in the tables isPrint16,
   isNotPrint16, isPrint32 and isNotPrint32 that are generated for each
   Go release; its answer there is taken as a parameter. *)
Variable isPrintTables : Z -> bool.

Definition IsPrint (r : Z) : bool :=
  if r <=? 0xFF then
    if (0x20 <=? r) && (r <=? 0x7E) then true
    else if (0xA1 <=? r) && (r <=? 0xFF) then negb (r =? 0xAD)
    else false
  else isPrintTables r.

Definition lowerhex : gostring := bytes_of "0123456789abcdef".

(* for s := hi; s >= 0; s -= 4 { buf = append(buf, lowerhex[r>>uint(s)&0xF]) } *)
Definition hexDigits (r : Z) (shifts : list Z) : gostring :=
  map (fun s => at_ lowerhex (Z.land (Z.shiftr r s) 0xF)) shifts.

(* appendEscapedRune(buf, r, quote, false, false) *)
Definition appendEscapedRune (buf : gostring) (r : Z) (quote : ascii) : gostring :=
  if (r =? code quote) || (r =? 92) then buf ++ [byte 92; byte r]
  else if IsPrint r then Utf8.AppendRune buf r
  else if r =? 7 then buf ++ bytes_of "\a"
  else if r =? 8 then buf ++ bytes_of "\b"
  else if r =? 12 then buf ++ bytes_of "\f"
  else if r =? 10 then buf ++ bytes_of "\n"
  else if r =? 13 then buf ++ bytes_of "\r"
  else if r =? 9 then buf ++ bytes_of "\t"
  else if r =? 11 then buf ++ bytes_of "\v"
  else if (r <? 32) || (r =? 0x7F) then
    buf ++ bytes_of "\x"
        ++ [at_ lowerhex (Z.shiftr (uint8 r) 4); at_ lowerhex (Z.land (uint8 r) 0xF)]
  else if negb (Utf8.ValidRune r) then
    buf ++ bytes_of "\u" ++ hexDigits 0xFFFD [12; 8; 4; 0]
  else if r <? 0x10000 then
    buf ++ bytes_of "\u" ++ hexDigits r [12; 8; 4; 0]
  else
    buf ++ bytes_of "\U" ++ hexDigits r [28; 24; 20; 16; 12; 8; 4; 0].

(* [for width := 0; len(s) > 0; s = s[width:]] of appendQuotedWith; every
   round consumes width >= 1 bytes of s *)
Fixpoint quoteLoop (fuel : nat) (buf s : gostring) (quote : ascii) : gostring :=
  match s with
  | [] => buf
  | c0 :: _ =>
    match fuel with
    | O => buf
    | S fuel' =>
      let '(r, width) :=
        if Utf8.RuneSelf <=? code c0 then Utf8.DecodeRuneInString s
        else (code c0, 1%nat) in
      if (width =? 1)%nat && (r =? Utf8.RuneError) then
        quoteLoop fuel'
          (buf ++ bytes_of "\x"
               ++ [at_ lowerhex (Z.shiftr (code c0) 4);
                   at_ lowerhex (Z.land (code c0) 0xF)])
          (skipn width s) quote
      else quoteLoop fuel' (appendEscapedRune buf r quote) (skipn width s) quote
    end
  end.

(* appendQuotedWith(buf, s, quote, false, false) *)
Definition appendQuotedWith (buf s : gostring) (quote : ascii) : gostring :=
  quoteLoop (length s) (buf ++ [quote]) s quote ++ [quote].

Definition Quote (s : gostring) : gostring := appendQuotedWith [] s (byte 34).

End Quoting.

End Strconv.

(** ** errors.go *)

(* the values an [error] wrapped by the package can hold *)
Inductive cause : Type :=
| causeErr (e : Strconv.Err)        (* a sentinel error of strconv *)
| causeNum (e : Strconv.NumError).  (* a *strconv.NumError *)

Record SnowflakeError : Type := mkSnowflakeError {
  message : string;
  err : cause
}.

Inductive error : Type :=
| StringParseError (e : SnowflakeError)
| UnquotedIntegerError (e : SnowflakeError).

Definition OriginalError (e : error) : cause :=
  match e with
  | StringParseError s => err s
  | UnquotedIntegerError s => err s
  end.

(** ** The text codec *)

Definition JSON_NULL : gostring := bytes_of "null".
Definition JSON_ZERO : gostring := bytes_of "0".
Definition JSON_ZERO_QUOTED : gostring := [byte 34; byte 48; byte 34].

Definition String_ (s : Snowflake) : gostring := Strconv.FormatUint s.

Definition ParseString (s : gostring) : Snowflake * option error :=
  let '(snowflake, err) := Strconv.ParseUint s in
  match err with
  | Some err =>
    (0, Some (StringParseError
                (mkSnowflakeError "unable to parse string as integer" (causeNum err))))
  | None => (snowflake, None)
  end.

Definition ParseJSON (cfg : Config) (b : gostring) : Snowflake * option error :=
  if bytes_Equal b JSON_NULL || bytes_Equal b JSON_ZERO || bytes_Equal b JSON_ZERO_QUOTED
  then (0, None)
  else
    let s := b in
    let '(snowflake, err) := Strconv.Unquote s in
    match err with
    | Some err =>
      if negb (AllowUnquoted cfg) then
        (0, Some (UnquotedIntegerError
                    (mkSnowflakeError
                       "unquoted integer but unquoted integers are not allowed"
                       (causeErr err))))
      else ParseString s
    | None => ParseString snowflake
    end.

Section Marshal.

Variable isPrintTables : Z -> bool.

Definition MarshalJSON (s : Snowflake) : gostring * option error :=
  (Strconv.Quote isPrintTables (Strconv.FormatUint s), None).

End Marshal.

(* The receiver is a pointer: the function takes the value stored at *s and
   returns the value stored there afterwards, with the error. *)
Definition UnmarshalJSON (cfg : Config) (s : Snowflake) (b : gostring)
  : Snowflake * option error :=
  let '(snowflake, err) := ParseJSON cfg b in
  match err with
  | Some err => (s, Some err)
  | None => (snowflake, None)
  end.

(** ** Decimal digit strings: the vocabulary of the properties below *)

Definition isDigit (c : ascii) : bool := (48 <=? code c) && (code c <=? 57).

Definition allDigits (s : gostring) : bool := forallb isDigit s.

(* the number read by continuing the numeral n with the digits of s *)
Definition digitsAcc (n : Z) (s : gostring) : Z :=
  fold_left (fun n c => n * 10 + (code c - 48)) s n.

(* the number a digit string denotes *)
Definition digitsVal (s : gostring) : Z := digitsAcc 0 s.

(* a non-empty digit string denoting a value of at most 2^64-1 *)
Definition validDecimal (s : gostring) : bool :=
  match s with
  | [] => false
  | _ => allDigits s && (digitsVal s <=? maxUint64)
  end.

(* no leading zero, except in the one-digit string 0 *)
Definition noLeadingZero (s : gostring) : bool :=
  match s with
  | [] => false
  | [_] => true
  | c :: _ => negb (code c =? 48)
  end.

(** ** The inputs ParseJSON accepts *)

Definition dquote : ascii := byte 34.

(* the inputs on which the code succeeds: the three literals, a literal in
   Go syntax that strconv.Unquote accepts and whose value is a valid
   decimal, and, when AllowUnquoted is set, a bare valid decimal *)
Definition accepts (cfg : Config) (b : gostring) : Prop :=
  b = JSON_NULL \/ b = JSON_ZERO \/ b = JSON_ZERO_QUOTED \/
  (exists s, Strconv.Unquote b = (s, None) /\ validDecimal s = true) \/
  (AllowUnquoted cfg = true /\ validDecimal b = true).

(* the inputs the specification lists: the three literals, a valid decimal
   between one pair of double quotes, and, when AllowUnquoted is set, a bare
   valid decimal *)
Definition specAccepts (cfg : Config) (b : gostring) : Prop :=
  b = bytes_of "null" \/ b = bytes_of "0" \/ b = [dquote; byte 48; dquote] \/
  (exists ds, b = dquote :: ds ++ [dquote] /\ validDecimal ds = true) \/
  (AllowUnquoted cfg = true /\ validDecimal b = true).

(** ** Checks by enumeration and abbreviations used in the proofs *)

(* entry k of the table of two-digit numerals *)
Definition smallsEntryOk (k : nat) : bool :=
  let z := Z.of_nat k in
  Ascii.eqb (Strconv.at_ Strconv.smallsString (z * 2)) (byte (48 + z / 10))
  && Ascii.eqb (Strconv.at_ Strconv.smallsString (z * 2 + 1)) (byte (48 + z mod 10)).

Definition smallOk (k : nat) : bool :=
  let s := Strconv.FormatUint (Z.of_nat k) in
  allDigits s && (digitsVal s =? Z.of_nat k) && noLeadingZero s.

(* the first test of ParseJSON *)
Definition isLiteral (b : gostring) : bool :=
  bytes_Equal b JSON_NULL || bytes_Equal b JSON_ZERO || bytes_Equal b JSON_ZERO_QUOTED.


(** ** The remaining methods and functions of snowflake.go *)

(* Time: time.UnixMilli(int64(s>>22) + int64(Epoch)); the name Time is a
   command of the proof assistant *)
Definition Time_ (cfg : Config) (s : Snowflake) : GoTime.Time :=
  GoTime.ofUnixMilli (int64 (int64 (Z.shiftr s 22) + int64 (Epoch cfg))).

(* bits[i] = b on an array held as a list; Go panics out of range, which the
   loop of Bitmap never reaches *)
Fixpoint setBit (i : nat) (b : bool) (bits : list bool) : list bool :=
  match bits, i with
  | [], _ => []
  | _ :: rest, O => b :: rest
  | x :: rest, S i' => x :: setBit i' b rest
  end.

(* bits := Bitmap{}; for i := range bits { bits[i] = s&(1<<i) != 0 } *)
Definition Bitmap (s : Snowflake) : list bool :=
  fold_left
    (fun bits i => setBit i (negb (Z.land s (uint64 (Z.shiftl 1 (Z.of_nat i))) =? 0)) bits)
    (seq 0 64) (repeat false 64).

(* what a call does: it returns, or it panics with the error of the parse *)
Inductive outcome (A : Type) : Type :=
| Returns (a : A)
| Panics (e : error).
Arguments Returns {A} a.
Arguments Panics {A} e.

Definition MustParseString (s : gostring) : outcome Snowflake :=
  let '(snowflake, err) := ParseString s in
  match err with
  | Some err => Panics err
  | None => Returns snowflake
  end.

Definition MustParseJSON (cfg : Config) (b : gostring) : outcome Snowflake :=
  let '(snowflake, err) := ParseJSON cfg b in
  match err with
  | Some err => Panics err
  | None => Returns snowflake
  end.

(* the type set string | uint64 | time.Time of the type parameter of Parse *)
Inductive ParseArg : Type :=
| ArgString (s : gostring)
| ArgUint64 (v : Z)
| ArgTime (t : GoTime.Time).

(* the switch on the dynamic type; its three cases cover the type set, so
   the final [return 0, nil] is not reached *)
Definition Parse (cfg : Config) (v : ParseArg) : Snowflake * option error :=
  match v with
  | ArgString t => ParseString t
  | ArgUint64 t => (t, None)
  | ArgTime t => (ParseTime cfg t, None)
  end.

Definition MustParse (cfg : Config) (v : ParseArg) : outcome Snowflake :=
  let '(snowflake, err) := Parse cfg v in
  match err with
  | Some err => Panics err
  | None => Returns snowflake
  end.

(** ** The method Error of errors.go

    [fmt.Sprintf("%s (original error: %s)", s.message, s.err.Error())]: with
    two string operands the verb %s copies them, so the result is a
    concatenation.  The wrapped error is one of strconv: a sentinel made by
    errors.New, or a *NumError, whose text is
    ["strconv." + e.Func + ": " + "parsing " + Quote(e.Num) + ": " + e.Err.Error()]. *)

Definition Err_Error (e : Strconv.Err) : gostring :=
  match e with
  | Strconv.ErrSyntax => bytes_of "invalid syntax"
  | Strconv.ErrRange => bytes_of "value out of range"
  end.

Section ErrorText.

Variable isPrintTables : Z -> bool.

Definition NumError_Error (e : Strconv.NumError) : gostring :=
  bytes_of "strconv." ++ bytes_of (Strconv.Func e) ++ bytes_of ": " ++ bytes_of "parsing "
  ++ Strconv.Quote isPrintTables (Strconv.Num e) ++ bytes_of ": "
  ++ Err_Error (Strconv.Err_ e).

Definition cause_Error (c : cause) : gostring :=
  match c with
  | causeErr e => Err_Error e
  | causeNum e => NumError_Error e
  end.

Definition SnowflakeError_Error (s : SnowflakeError) : gostring :=
  bytes_of (message s) ++ bytes_of " (original error: " ++ cause_Error (err s)
  ++ bytes_of ")".

(* the method promoted to the two error types through the embedded struct *)
Definition Error (e : error) : gostring :=
  match e with
  | StringParseError s => SnowflakeError_Error s
  | UnquotedIntegerError s => SnowflakeError_Error s
  end.

End ErrorText.

(** ** Further vocabulary of the properties *)

(* the number whose binary digits, least significant first, are the list *)
Definition fromBits (bits : list bool) : Z :=
  fold_right (fun b acc => Z.b2z b + 2 * acc) 0 bits.

(* the longest prefix of digits *)
Fixpoint digitPrefix (s : gostring) : gostring :=
  match s with
  | [] => []
  | c :: rest => if isDigit c then c :: digitPrefix rest else []
  end.

(* the value laid out from its four fields *)
Definition layout (ts w p q : Z) : Z := ts * 2 ^ 22 + w * 2 ^ 17 + p * 2 ^ 12 + q.

(** * Properties *)

(** ** Facts about the integer conversions *)

Lemma uint64_range z : is_uint64 (uint64 z).
Proof. unfold is_uint64, uint64. apply Z.mod_pos_bound. lia. Qed.

Lemma int64_range z : is_int64 (int64 z).
Proof.
  unfold is_int64, int64.
  pose proof (Z.mod_pos_bound (z + 2 ^ 63) (2 ^ 64) ltac:(lia)). lia.
Qed.

Lemma uint64_small z : is_uint64 z -> uint64 z = z.
Proof. unfold is_uint64, uint64. intros H. now apply Z.mod_small. Qed.

Lemma int64_mod z : int64 z mod 2 ^ 64 = z mod 2 ^ 64.
Proof.
  unfold int64. rewrite Zminus_mod_idemp_l.
  f_equal. lia.
Qed.

Lemma uint64_int64 z : uint64 (int64 z) = uint64 z.
Proof. apply int64_mod. Qed.

Lemma code_range c : 0 <= code c < 256.
Proof.
  unfold code. pose proof (N_ascii_bounded c). lia.
Qed.

(** ** Field accessors *)

(* A mask of k ones at offset n selects, after the shift, k bits of v. *)
Lemma field_extract v n k :
  0 <= n -> 0 <= k ->
  Z.shiftr (Z.land v (Z.shiftl (Z.ones k) n)) n = (v / 2 ^ n) mod 2 ^ k.
Proof.
  intros Hn Hk.
  rewrite Z.shiftr_land, Z.shiftr_shiftl_l by lia.
  rewrite Z.sub_diag, Z.shiftl_0_r, Z.land_ones by lia.
  now rewrite Z.shiftr_div_pow2 by lia.
Qed.

Lemma Sequence_mod v : Sequence v = v mod 2 ^ 12.
Proof.
  unfold Sequence, uint16.
  change 0xFFF with (Z.ones 12). rewrite Z.land_ones by lia.
  pose proof (Z.mod_pos_bound v (2 ^ 12) ltac:(lia)).
  apply Z.mod_small. lia.
Qed.

Lemma ProcessID_mod v : ProcessID v = (v / 2 ^ 12) mod 2 ^ 5.
Proof.
  unfold ProcessID, uint8.
  change 0x1F000 with (Z.shiftl (Z.ones 5) 12).
  rewrite field_extract by lia.
  pose proof (Z.mod_pos_bound (v / 2 ^ 12) (2 ^ 5) ltac:(lia)).
  apply Z.mod_small. lia.
Qed.

Lemma WorkerID_mod v : WorkerID v = (v / 2 ^ 17) mod 2 ^ 5.
Proof.
  unfold WorkerID, uint8.
  change 0x3E0000 with (Z.shiftl (Z.ones 5) 17).
  rewrite field_extract by lia.
  pose proof (Z.mod_pos_bound (v / 2 ^ 17) (2 ^ 5) ltac:(lia)).
  apply Z.mod_small. lia.
Qed.

(** C6: the accessors compute the masks and shifts of the layout: Sequence is
    [v & 0xFFF], ProcessID is [(v & 0x1F000) >> 12], WorkerID is
    [(v & 0x3E0000) >> 17], the conversions to uint16 and uint8 losing
    nothing, and UnixMilli is [(v >> 22) + Epoch] modulo 2^64, for every
    value and every Epoch. *)
Theorem accessors_spec (cfg : Config) (v : Snowflake) :
  Sequence v = Z.land v 0xFFF /\
  ProcessID v = Z.shiftr (Z.land v 0x1F000) 12 /\
  WorkerID v = Z.shiftr (Z.land v 0x3E0000) 17 /\
  UnixMilli cfg v = (Z.shiftr v 22 + Epoch cfg) mod 2 ^ 64.
Proof.
  repeat split.
  - rewrite Sequence_mod. change 0xFFF with (Z.ones 12).
    now rewrite Z.land_ones by lia.
  - rewrite ProcessID_mod. change 0x1F000 with (Z.shiftl (Z.ones 5) 12).
    now rewrite field_extract by lia.
  - rewrite WorkerID_mod. change 0x3E0000 with (Z.shiftl (Z.ones 5) 17).
    now rewrite field_extract by lia.
Qed.

(* The four fields partition the 64 bits. *)
Lemma fields_partition (v : Snowflake) :
  v = Sequence v + 2 ^ 12 * ProcessID v + 2 ^ 17 * WorkerID v
      + 2 ^ 22 * Z.shiftr v 22.
Proof.
  rewrite Sequence_mod, ProcessID_mod, WorkerID_mod, Z.shiftr_div_pow2 by lia.
  pose proof (Z.div_mod v (2 ^ 12) ltac:(lia)) as H0.
  pose proof (Z.div_mod (v / 2 ^ 12) (2 ^ 5) ltac:(lia)) as H1.
  pose proof (Z.div_mod (v / 2 ^ 17) (2 ^ 5) ltac:(lia)) as H2.
  rewrite Z.div_div in H1 by lia. change (2 ^ 12 * 2 ^ 5) with (2 ^ 17) in H1.
  rewrite Z.div_div in H2 by lia. change (2 ^ 17 * 2 ^ 5) with (2 ^ 22) in H2.
  lia.
Qed.

(** ** Bit *)

Lemma land_pow2 v i : 0 <= i -> Z.land v (2 ^ i) = Z.b2z (Z.testbit v i) * 2 ^ i.
Proof.
  intros Hi. apply Z.bits_inj'. intros n Hn.
  rewrite Z.land_spec, Z.pow2_bits_eqb by lia.
  destruct (Z.testbit v i) eqn:Hb; cbn [Z.b2z].
  - rewrite Z.mul_1_l, Z.pow2_bits_eqb by lia.
    destruct (Z.eqb_spec i n) as [->|Hne].
    + now rewrite Hb.
    + apply andb_false_r.
  - rewrite Z.mul_0_l, Z.testbit_0_l.
    destruct (Z.eqb_spec i n) as [->|Hne].
    + now rewrite Hb.
    + apply andb_false_r.
Qed.

Lemma Bit_testbit v i : 0 <= i < 64 -> Bit v i = Z.testbit v i.
Proof.
  intros Hi. unfold Bit.
  replace (i <? 64) with true by (symmetry; apply Z.ltb_lt; lia).
  rewrite Z.shiftl_1_l.
  rewrite uint64_small
    by (unfold is_uint64; split; [lia | apply Z.pow_lt_mono_r; lia]).
  rewrite land_pow2 by lia.
  pose proof (Z.pow_pos_nonneg 2 i ltac:(lia) ltac:(lia)).
  destruct (Z.testbit v i); cbn [Z.b2z].
  - destruct (Z.eqb_spec (1 * 2 ^ i) 0); [lia | reflexivity].
  - reflexivity.
Qed.

(** C7: for an index below 64 Bit is bit i of the value,
    [(v >> i) & 1 == 1]; for an index from 64 to 255 it is false. *)
Theorem Bit_spec (v : Snowflake) (i : Z) :
  is_uint64 v -> is_uint8 i ->
  (i < 64 -> Bit v i = (Z.land (Z.shiftr v i) 1 =? 1)) /\
  (64 <= i -> Bit v i = false).
Proof.
  intros _ [Hi0 Hi]. split; intros Hlt.
  - rewrite Bit_testbit by lia.
    change 1 with (Z.ones 1) at 1. rewrite Z.land_ones by lia.
    change (2 ^ 1) with 2. rewrite <- Z.bit0_mod, Z.shiftr_spec by lia.
    rewrite Z.add_0_l. now destruct (Z.testbit v i).
  - unfold Bit. destruct (Z.ltb_spec i 64); [lia | reflexivity].
Qed.

(* the table of TestBit *)
Example Bit_tests :
  map (Bit 175928847299117209) [0; 1; 2; 3; 4; 5; 6; 63; 62; 61; 57]
  = [true; false; false; true; true; false; false; false; false; false; true] /\
  map (Bit 175928847299117209) [70; 65; 100; 200; 255]
  = [false; false; false; false; false].
Proof. split; vm_compute; reflexivity. Qed.

Lemma Bit_spec_witness :
  Bit 175928847299117209 3 = true /\ Bit 175928847299117209 70 = false.
Proof.
  split.
  - rewrite (proj1 (Bit_spec 175928847299117209 3
                      ltac:(unfold is_uint64; lia) ltac:(unfold is_uint8; lia)))
      by lia.
    reflexivity.
  - apply (proj2 (Bit_spec 175928847299117209 70
                    ltac:(unfold is_uint64; lia) ltac:(unfold is_uint8; lia))).
    lia.
Defined.

(** ** ParseTime *)

Lemma UnixMilli_range t : is_int64 (GoTime.UnixMilli t).
Proof. unfold GoTime.UnixMilli. apply int64_range. Qed.

Lemma ParseTime_mod cfg t :
  ParseTime cfg t = ((GoTime.UnixMilli t - Epoch cfg) * 2 ^ 22) mod 2 ^ 64.
Proof.
  unfold ParseTime, uint64.
  rewrite int64_mod, Z.shiftl_mul_pow2 by lia.
  rewrite <- (Z.mul_mod_idemp_l (int64 _)), int64_mod by lia.
  rewrite <- (Zminus_mod_idemp_r _ (int64 _)), int64_mod.
  rewrite Zminus_mod_idemp_r, Z.mul_mod_idemp_l by lia.
  reflexivity.
Qed.

Lemma ParseTime_low_bits cfg t : ParseTime cfg t mod 2 ^ 22 = 0.
Proof.
  rewrite ParseTime_mod.
  change (2 ^ 64) with (2 ^ 42 * 2 ^ 22).
  rewrite Z.mul_mod_distr_r by lia.
  apply Z.mod_mul. lia.
Qed.

(** C9: ParseTime is the Unix millisecond of t minus Epoch, subtracted in
    int64, shifted left by 22 and read as a uint64, that is
    [(ms - Epoch) * 2^22] modulo 2^64 whether or not t predates the epoch;
    the low 22 bits, hence worker id, process id and sequence, are zero. *)
Theorem ParseTime_spec (cfg : Config) (t : GoTime.Time) :
  ParseTime cfg t
    = uint64 (Z.shiftl (int64 (GoTime.UnixMilli t - int64 (Epoch cfg))) 22) /\
  ParseTime cfg t = ((GoTime.UnixMilli t - Epoch cfg) * 2 ^ 22) mod 2 ^ 64 /\
  Z.land (ParseTime cfg t) 0x3FFFFF = 0 /\
  WorkerID (ParseTime cfg t) = 0 /\
  ProcessID (ParseTime cfg t) = 0 /\
  Sequence (ParseTime cfg t) = 0.
Proof.
  pose proof (ParseTime_low_bits cfg t) as Hlow.
  assert (Hdiv : exists q, ParseTime cfg t = 2 ^ 22 * q).
  { exists (ParseTime cfg t / 2 ^ 22).
    pose proof (Z.div_mod (ParseTime cfg t) (2 ^ 22) ltac:(lia)). lia. }
  destruct Hdiv as [q Hq].
  split; [| split; [| split; [| split; [| split]]]].
  - unfold ParseTime. now rewrite uint64_int64.
  - apply ParseTime_mod.
  - change 0x3FFFFF with (Z.ones 22). now rewrite Z.land_ones by lia.
  - rewrite WorkerID_mod, Hq.
    change (2 ^ 22 * q) with (2 ^ (17 + 5) * q).
    rewrite Z.pow_add_r, <- Z.mul_assoc, Z.mul_comm, Z.div_mul by lia.
    rewrite Z.mul_comm. apply Z.mod_mul. lia.
  - rewrite ProcessID_mod, Hq.
    change (2 ^ 22 * q) with (2 ^ (12 + 10) * q).
    rewrite Z.pow_add_r, <- Z.mul_assoc, Z.mul_comm, Z.div_mul by lia.
    change (2 ^ 10) with (2 ^ 5 * 2 ^ 5).
    rewrite <- Z.mul_assoc, Z.mul_comm. apply Z.mod_mul. lia.
  - rewrite Sequence_mod, Hq.
    change (2 ^ 22) with (2 ^ 10 * 2 ^ 12).
    rewrite <- Z.mul_assoc, (Z.mul_comm (2 ^ 12)), Z.mul_assoc.
    apply Z.mod_mul. lia.
Qed.

(** C10: when the Unix millisecond m of t satisfies Epoch <= m < Epoch + 2^42,
    UnixMilli gives m back from ParseTime t. *)
Theorem UnixMilli_ParseTime (cfg : Config) (t : GoTime.Time) :
  is_uint64 (Epoch cfg) ->
  Epoch cfg <= GoTime.UnixMilli t < Epoch cfg + 2 ^ 42 ->
  UnixMilli cfg (ParseTime cfg t) = GoTime.UnixMilli t.
Proof.
  intros HE Hm.
  pose proof (UnixMilli_range t) as Hr.
  unfold is_uint64 in HE. unfold is_int64 in Hr.
  unfold UnixMilli. rewrite ParseTime_mod.
  rewrite (Z.mod_small ((GoTime.UnixMilli t - Epoch cfg) * 2 ^ 22)) by lia.
  rewrite Z.shiftr_div_pow2, Z.div_mul by lia.
  rewrite uint64_small by (unfold is_uint64; lia).
  lia.
Qed.

Lemma UnixMilli_ParseTime_witness :
  UnixMilli defaultConfig (ParseTime defaultConfig (GoTime.ofUnixMilli 1745104672445))
  = 1745104672445.
Proof.
  apply (UnixMilli_ParseTime defaultConfig (GoTime.ofUnixMilli 1745104672445)).
  - unfold is_uint64. simpl. lia.
  - vm_compute. split; [discriminate | reflexivity].
Defined.

(** ** ParseUint on digit strings *)

Lemma byte_code c : byte (code c) = c.
Proof.
  unfold byte, code.
  pose proof (N_ascii_bounded c) as Hb.
  rewrite Z.mod_small by lia.
  rewrite N2Z.id. apply ascii_N_embedding.
Qed.

Lemma code_byte z : 0 <= z < 256 -> code (byte z) = z.
Proof.
  intros Hz. unfold byte, code.
  rewrite Z.mod_small by lia.
  rewrite N_ascii_embedding by lia. lia.
Qed.

Lemma uint8_small z : 0 <= z < 256 -> uint8 z = z.
Proof. intros Hz. unfold uint8. apply Z.mod_small. lia. Qed.

Lemma isDigit_spec c : isDigit c = true <-> 48 <= code c <= 57.
Proof. unfold isDigit. rewrite andb_true_iff, !Z.leb_le. tauto. Qed.

Lemma digitsAcc_cons n c s : digitsAcc n (c :: s) = digitsAcc (n * 10 + (code c - 48)) s.
Proof. reflexivity. Qed.

Lemma digitsAcc_app n s t : digitsAcc n (s ++ t) = digitsAcc (digitsAcc n s) t.
Proof. unfold digitsAcc. apply fold_left_app. Qed.

Lemma digitsAcc_ge s : forall n, 0 <= n -> allDigits s = true -> n <= digitsAcc n s.
Proof.
  induction s as [|c s IH]; intros n Hn Hd.
  - unfold digitsAcc. simpl. lia.
  - simpl in Hd. apply andb_true_iff in Hd as [Hc Hs]. apply isDigit_spec in Hc.
    rewrite digitsAcc_cons.
    specialize (IH (n * 10 + (code c - 48)) ltac:(lia) Hs). lia.
Qed.

Lemma maxVal_eq : Strconv.maxVal = maxUint64.
Proof. reflexivity. Qed.

Lemma cutoff_eq : Strconv.cutoff = 1844674407370955162.
Proof. reflexivity. Qed.

(* one round of the loop on a digit that fits *)
Lemma parseLoop_digit s0 n c s :
  0 <= n -> 48 <= code c <= 57 -> n * 10 + (code c - 48) <= maxUint64 ->
  Strconv.parseLoop s0 n (c :: s) = Strconv.parseLoop s0 (n * 10 + (code c - 48)) s.
Proof.
  intros Hn Hc Hfit. cbn [Strconv.parseLoop].
  destruct (Z.leb_spec 48 (code c)); [|lia].
  destruct (Z.leb_spec (code c) 57); [|lia]. cbn [andb].
  rewrite (uint8_small (code c - 48)) by lia.
  change (uint8 Strconv.base) with 10.
  destruct (Z.leb_spec 10 (code c - 48)); [lia|].
  rewrite cutoff_eq, maxVal_eq. unfold maxUint64 in *.
  destruct (Z.leb_spec 1844674407370955162 n); [lia|].
  change Strconv.base with 10.
  rewrite (uint64_small (n * 10)) by (unfold is_uint64; lia).
  rewrite (uint64_small (n * 10 + (code c - 48))) by (unfold is_uint64; lia).
  destruct (Z.ltb_spec (n * 10 + (code c - 48)) (n * 10)); [lia|].
  destruct (Z.ltb_spec (2 ^ 64 - 1) (n * 10 + (code c - 48))); [lia|].
  reflexivity.
Qed.

Lemma parseLoop_ok s0 s : forall n,
  0 <= n -> allDigits s = true -> digitsAcc n s <= maxUint64 ->
  Strconv.parseLoop s0 n s = (digitsAcc n s, None).
Proof.
  induction s as [|c s IH]; intros n Hn Hd Hfit.
  - reflexivity.
  - simpl in Hd. apply andb_true_iff in Hd as [Hc Hs].
    apply isDigit_spec in Hc. rewrite digitsAcc_cons in *.
    pose proof (digitsAcc_ge s (n * 10 + (code c - 48)) ltac:(lia) Hs).
    rewrite parseLoop_digit by lia.
    apply IH; [lia | assumption | assumption].
Qed.


(* the loop fails as soon as the input is not a digit string or its value
   leaves the range *)
Lemma parseLoop_fail s0 s : forall n,
  0 <= n <= maxUint64 ->
  allDigits s = false \/ maxUint64 < digitsAcc n s ->
  exists v e, Strconv.parseLoop s0 n s = (v, Some e).
Proof.
  induction s as [|c s IH]; intros n Hn Hbad.
  - destruct Hbad as [Hbad | Hbad]; [discriminate | unfold digitsAcc in Hbad; simpl in Hbad; lia].
  - cbn [Strconv.parseLoop].
    destruct ((48 <=? code c) && (code c <=? 57)) eqn:Hdig.
    + apply andb_true_iff in Hdig as [H1 H2]. apply Z.leb_le in H1, H2.
      rewrite (uint8_small (code c - 48)) by lia.
      change (uint8 Strconv.base) with 10.
      destruct (Z.leb_spec 10 (code c - 48)); [lia|].
      rewrite cutoff_eq, maxVal_eq. unfold maxUint64 in *.
      destruct (Z.leb_spec 1844674407370955162 n); [eauto|].
      change Strconv.base with 10.
      rewrite (uint64_small (n * 10)) by (unfold is_uint64; lia).
      destruct (Z_lt_ge_dec (2 ^ 64 - 1) (n * 10 + (code c - 48))) as [Hov | Hfit].
      * (* the addition wraps around *)
        assert (Hw : uint64 (n * 10 + (code c - 48)) = n * 10 + (code c - 48) - 2 ^ 64).
        { unfold uint64. symmetry. apply (Z.mod_unique _ _ 1); lia. }
        rewrite Hw.
        destruct (Z.ltb_spec (n * 10 + (code c - 48) - 2 ^ 64) (n * 10)); [|lia].
        cbn [orb]. eauto.
      * rewrite (uint64_small (n * 10 + (code c - 48))) by (unfold is_uint64; lia).
        destruct (Z.ltb_spec (n * 10 + (code c - 48)) (n * 10)); [lia|].
        destruct (Z.ltb_spec (2 ^ 64 - 1) (n * 10 + (code c - 48))); [lia|].
        cbn [orb]. apply IH; [lia|].
        destruct Hbad as [Hbad | Hbad].
        -- left. simpl in Hbad. unfold isDigit in Hbad.
           destruct (Z.leb_spec 48 (code c)); [|lia].
           destruct (Z.leb_spec (code c) 57); [|lia]. exact Hbad.
        -- right. now rewrite digitsAcc_cons in Hbad.
    + destruct ((97 <=? Strconv.lower (code c)) && (Strconv.lower (code c) <=? 122)) eqn:Hlet.
      * apply andb_true_iff in Hlet as [H1 H2]. apply Z.leb_le in H1, H2.
        rewrite (uint8_small (Strconv.lower (code c) - 97 + 10)) by lia.
        change (uint8 Strconv.base) with 10.
        destruct (Z.leb_spec 10 (Strconv.lower (code c) - 97 + 10)); [eauto | lia].
      * eauto.
Qed.

Lemma validDecimal_spec s :
  validDecimal s = true <-> s <> [] /\ allDigits s = true /\ digitsVal s <= maxUint64.
Proof.
  destruct s as [|c s]; simpl.
  - split; [discriminate | intros [H _]; congruence].
  - rewrite andb_true_iff, Z.leb_le. split.
    + intros [H1 H2]. split; [discriminate | tauto].
    + tauto.
Qed.

Lemma ParseUint_ok s :
  validDecimal s = true -> Strconv.ParseUint s = (digitsVal s, None).
Proof.
  intros Hv. apply validDecimal_spec in Hv as (Hne & Hd & Hfit).
  destruct s as [|c s]; [congruence|].
  unfold Strconv.ParseUint. apply parseLoop_ok; [lia | assumption | assumption].
Qed.

Lemma ParseUint_fail s :
  validDecimal s = false -> exists v e, Strconv.ParseUint s = (v, Some e).
Proof.
  intros Hv. destruct s as [|c s].
  - simpl. eauto.
  - unfold Strconv.ParseUint. apply parseLoop_fail; [unfold maxUint64; lia|].
    unfold validDecimal in Hv. apply andb_false_iff in Hv as [Hv | Hv].
    + now left.
    + right. apply Z.leb_gt in Hv. exact Hv.
Qed.

Lemma ParseString_ok s :
  validDecimal s = true -> ParseString s = (digitsVal s, None).
Proof. intros Hv. unfold ParseString. now rewrite ParseUint_ok. Qed.

Lemma ParseString_fail s :
  validDecimal s = false ->
  exists v ne,
    Strconv.ParseUint s = (v, Some ne) /\
    ParseString s
    = (0, Some (StringParseError
                  (mkSnowflakeError "unable to parse string as integer" (causeNum ne)))).
Proof.
  intros Hv. destruct (ParseUint_fail s Hv) as (v & ne & He).
  exists v, ne. unfold ParseString. rewrite He. auto.
Qed.

(** C2: ParseString succeeds, with the denoted integer as value, exactly on
    the non-empty strings of digits 0-9 that denote at most 2^64-1; on every
    other string it returns a StringParseError whose original error is the
    *NumError of strconv.ParseUint. *)
Theorem ParseString_spec (s : gostring) :
  if validDecimal s then ParseString s = (digitsVal s, None)
  else exists v ne,
      Strconv.ParseUint s = (v, Some ne) /\
      ParseString s
      = (0, Some (StringParseError
                    (mkSnowflakeError "unable to parse string as integer" (causeNum ne)))) /\
      OriginalError (StringParseError
                       (mkSnowflakeError "unable to parse string as integer" (causeNum ne)))
      = causeNum ne.
Proof.
  destruct (validDecimal s) eqn:Hv.
  - now apply ParseString_ok.
  - destruct (ParseString_fail s Hv) as (v & ne & He & Hp).
    exists v, ne. auto.
Qed.

(* the cases of TestParseString *)
Example ParseString_tests :
  ParseString (bytes_of "1000") = (1000, None) /\
  ParseString (bytes_of "175928847299117209") = (175928847299117209, None) /\
  validDecimal (bytes_of "-1") = false /\
  validDecimal (bytes_of "1000000000000000000000000") = false /\
  validDecimal (bytes_of "abcdef") = false.
Proof. repeat split; vm_compute; reflexivity. Qed.

(** ** FormatUint *)

Lemma smallsString_spec k :
  0 <= k < 100 ->
  Strconv.at_ Strconv.smallsString (k * 2) = byte (48 + k / 10) /\
  Strconv.at_ Strconv.smallsString (k * 2 + 1) = byte (48 + k mod 10).
Proof.
  intros Hk.
  assert (Hall : forallb smallsEntryOk (seq 0 100) = true) by (vm_compute; reflexivity).
  rewrite forallb_forall in Hall.
  specialize (Hall (Z.to_nat k)).
  unfold smallsEntryOk in Hall. rewrite Z2Nat.id in Hall by lia.
  rewrite andb_true_iff, !Ascii.eqb_eq in Hall.
  apply Hall. apply in_seq. lia.
Qed.

Lemma FormatUint_small v :
  0 <= v < 100 ->
  allDigits (Strconv.FormatUint v) = true /\
  digitsVal (Strconv.FormatUint v) = v /\
  noLeadingZero (Strconv.FormatUint v) = true.
Proof.
  intros Hv.
  assert (Hall : forallb smallOk (seq 0 100) = true) by (vm_compute; reflexivity).
  rewrite forallb_forall in Hall.
  specialize (Hall (Z.to_nat v)).
  unfold smallOk in Hall. rewrite Z2Nat.id in Hall by lia.
  rewrite !andb_true_iff, Z.eqb_eq in Hall.
  assert (In (Z.to_nat v) (seq 0 100)) by (apply in_seq; lia).
  tauto.
Qed.

Lemma isDigit_byte d : 0 <= d <= 9 -> isDigit (byte (48 + d)) = true.
Proof.
  intros Hd. apply isDigit_spec. rewrite code_byte by lia. lia.
Qed.

(* Reading the digits left of the buffer after the loop gives what reading
   them before the loop gave, and the loop stops below 100. *)
Lemma formatLoop_spec fuel : forall us a,
  0 <= us < 100 * 2 ^ Z.of_nat fuel ->
  allDigits a = true ->
  0 <= fst (Strconv.formatLoop fuel us a) < 100 /\
  (1 <= us -> 1 <= fst (Strconv.formatLoop fuel us a)) /\
  allDigits (snd (Strconv.formatLoop fuel us a)) = true /\
  digitsAcc (fst (Strconv.formatLoop fuel us a)) (snd (Strconv.formatLoop fuel us a))
  = digitsAcc us a.
Proof.
  induction fuel as [|fuel IH]; intros us a Hus Ha.
  - cbn [Strconv.formatLoop]. change (2 ^ Z.of_nat 0) with 1 in Hus.
    destruct (Z.leb_spec 100 us); [lia|]. cbn [fst snd]. auto with zarith.
  - cbn [Strconv.formatLoop].
    destruct (Z.leb_spec 100 us) as [Hge|Hlt]; [| cbn [fst snd]; auto with zarith].
    pose proof (Z.mod_pos_bound us 100 ltac:(lia)) as Hm.
    pose proof (Z.div_mod us 100 ltac:(lia)) as Hdm.
    pose proof (Z.mod_pos_bound (us mod 100) 10 ltac:(lia)) as Hm0.
    pose proof (Z.div_mod (us mod 100) 10 ltac:(lia)) as Hdm0.
    assert (Hq : 0 <= us mod 100 / 10 <= 9).
    { split; [apply Z.div_pos; lia |].
      apply Z.lt_succ_r. apply Z.div_lt_upper_bound; lia. }
    destruct (smallsString_spec (us mod 100) Hm) as [E1 E0].
    rewrite E1, E0.
    rewrite Nat2Z.inj_succ, Z.pow_succ_r in Hus by lia.
    assert (Hdiv : 1 <= us / 100 < 100 * 2 ^ Z.of_nat fuel).
    { split; [apply Z.div_le_lower_bound; lia | apply Z.div_lt_upper_bound; lia]. }
    specialize (IH (us / 100)
                   (byte (48 + us mod 100 / 10) :: byte (48 + (us mod 100) mod 10) :: a)
                   ltac:(lia)).
    destruct IH as (I1 & I2 & I3 & I4).
    { cbn [allDigits forallb]. fold (allDigits a).
      rewrite !isDigit_byte by lia. exact Ha. }
    repeat split; try tauto; try lia.
    rewrite I4, !digitsAcc_cons, !code_byte by lia.
    f_equal. lia.
Qed.

Lemma log2_fuel u : 1 <= u -> u < 100 * 2 ^ Z.of_nat (Z.to_nat (Z.log2 u)).
Proof.
  intros Hu. pose proof (Z.log2_nonneg u).
  rewrite Z2Nat.id by lia.
  pose proof (Z.log2_spec u ltac:(lia)) as [_ Hs].
  rewrite Z.pow_succ_r in Hs by lia. lia.
Qed.

Lemma formatBits10_spec u :
  1 <= u ->
  allDigits (Strconv.formatBits10 u) = true /\
  digitsVal (Strconv.formatBits10 u) = u /\
  noLeadingZero (Strconv.formatBits10 u) = true.
Proof.
  intros Hu. unfold Strconv.formatBits10.
  pose proof (formatLoop_spec (Z.to_nat (Z.log2 u)) u []
                ltac:(pose proof (log2_fuel u Hu); lia) eq_refl) as (I1 & I2 & I3 & I4).
  destruct (Strconv.formatLoop (Z.to_nat (Z.log2 u)) u []) as [us a].
  cbn [fst snd] in *. specialize (I2 Hu).
  pose proof (Z.mod_pos_bound us 10 ltac:(lia)) as Hm0.
  pose proof (Z.div_mod us 10 ltac:(lia)) as Hdm0.
  assert (Hq : 0 <= us / 10 <= 9).
  { split; [apply Z.div_pos; lia |].
    apply Z.lt_succ_r. apply Z.div_lt_upper_bound; lia. }
  destruct (smallsString_spec us I1) as [E1 E0]. rewrite E1, E0.
  change (digitsAcc u []) with u in I4.
  destruct (Z.leb_spec 10 us) as [Hge|Hlt].
  - repeat split.
    + cbn [allDigits forallb]. fold (allDigits a).
      now rewrite !isDigit_byte by lia.
    + unfold digitsVal. rewrite !digitsAcc_cons, !code_byte by lia.
      rewrite <- I4. f_equal. lia.
    + cbn [noLeadingZero]. rewrite code_byte by lia.
      assert (1 <= us / 10) by (apply Z.div_le_lower_bound; lia).
      destruct (Z.eqb_spec (48 + us / 10) 48); [lia | reflexivity].
  - rewrite Z.mod_small by lia. repeat split.
    + cbn [allDigits forallb]. fold (allDigits a).
      now rewrite !isDigit_byte by lia.
    + unfold digitsVal. rewrite !digitsAcc_cons, !code_byte by lia.
      rewrite <- I4. f_equal. lia.
    + cbn [noLeadingZero]. rewrite code_byte by lia.
      destruct a; [reflexivity|].
      destruct (Z.eqb_spec (48 + us) 48); [lia | reflexivity].
Qed.

(* String is the canonical decimal numeral of the value *)
Lemma String_decimal (v : Snowflake) :
  0 <= v ->
  allDigits (String_ v) = true /\
  digitsVal (String_ v) = v /\
  noLeadingZero (String_ v) = true.
Proof.
  intros Hv. destruct (Z_lt_ge_dec v 100) as [Hlt|Hge].
  - apply FormatUint_small. lia.
  - unfold String_, Strconv.FormatUint.
    change Strconv.nSmalls with 100.
    destruct (Z.ltb_spec v 100); [lia|].
    apply formatBits10_spec. lia.
Qed.

Lemma String_valid (v : Snowflake) : is_uint64 v -> validDecimal (String_ v) = true.
Proof.
  intros [H0 H1]. destruct (String_decimal v H0) as (Hd & Hval & Hz).
  apply validDecimal_spec. repeat split.
  - intros E. rewrite E in Hz. discriminate.
  - exact Hd.
  - rewrite Hval. unfold maxUint64. lia.
Qed.

(** C8: parsing the decimal string of a 64-bit value with ParseString
    succeeds and returns the value. *)
Theorem ParseString_String (v : Snowflake) :
  is_uint64 v -> ParseString (String_ v) = (v, None).
Proof.
  intros Hv.
  rewrite (ParseString_ok _ (String_valid v Hv)).
  destruct Hv as [H0 _].
  now destruct (String_decimal v H0) as (_ & -> & _).
Qed.

Lemma ParseString_String_witness :
  ParseString (String_ 175928847299117209) = (175928847299117209, None).
Proof.
  apply (ParseString_String 175928847299117209).
  unfold is_uint64. lia.
Defined.

(** ** Quote and Unquote on digit strings *)

Lemma digit_cases c : isDigit c = true -> In c (bytes_of "0123456789").
Proof.
  intros Hc. apply isDigit_spec in Hc.
  rewrite <- (byte_code c).
  assert (H : code c = 48 \/ code c = 49 \/ code c = 50 \/ code c = 51 \/ code c = 52 \/
              code c = 53 \/ code c = 54 \/ code c = 55 \/ code c = 56 \/ code c = 57) by lia.
  simpl.
  repeat (destruct H as [H | H]; [rewrite H; tauto |]).
  rewrite H. tauto.
Qed.

Ltac each_digit H :=
  apply digit_cases in H; simpl in H;
  repeat (destruct H as [H | H]; [subst |]); [.. | contradiction].

Section QuoteDigits.

Variable isPrintTables : Z -> bool.

Lemma quoteLoop_digit fuel buf c s :
  isDigit c = true ->
  Strconv.quoteLoop isPrintTables (S fuel) buf (c :: s) dquote
  = Strconv.quoteLoop isPrintTables fuel (buf ++ [c]) s dquote.
Proof.
  intros Hc. each_digit Hc; reflexivity.
Qed.

Lemma quoteLoop_digits s : forall fuel buf,
  allDigits s = true -> (length s <= fuel)%nat ->
  Strconv.quoteLoop isPrintTables fuel buf s dquote = buf ++ s.
Proof.
  induction s as [|c s IH]; intros fuel buf Hd Hf.
  - destruct fuel; simpl; now rewrite app_nil_r.
  - simpl in Hd. apply andb_true_iff in Hd as [Hc Hs].
    destruct fuel as [|fuel]; [simpl in Hf; lia|].
    rewrite quoteLoop_digit by assumption.
    rewrite IH by (simpl in Hf; auto; lia).
    now rewrite <- app_assoc.
Qed.

Lemma Quote_digits s :
  allDigits s = true -> Strconv.Quote isPrintTables s = dquote :: s ++ [dquote].
Proof.
  intros Hd. unfold Strconv.Quote, Strconv.appendQuotedWith.
  fold dquote. now rewrite quoteLoop_digits by auto.
Qed.

(** C5: MarshalJSON returns no error and the decimal numeral of the value
    (digits only, denoting the value, without leading zero) between one
    pair of double quotes.  The function does not read AllowUnquoted. *)
Theorem MarshalJSON_spec (v : Snowflake) :
  is_uint64 v ->
  MarshalJSON isPrintTables v = (dquote :: String_ v ++ [dquote], None) /\
  allDigits (String_ v) = true /\
  digitsVal (String_ v) = v /\
  noLeadingZero (String_ v) = true.
Proof.
  intros [H0 _]. pose proof (String_decimal v H0) as (Hd & Hv & Hz).
  repeat split; try assumption.
  unfold MarshalJSON. fold (String_ v). now rewrite Quote_digits.
Qed.

End QuoteDigits.

Lemma MarshalJSON_spec_witness :
  MarshalJSON (fun _ => false) 175928847299117209
  = (dquote :: bytes_of "175928847299117209" ++ [dquote], None).
Proof.
  apply (MarshalJSON_spec (fun _ => false) 175928847299117209).
  unfold is_uint64. lia.
Defined.

Lemma index_none s c : ~ In c s -> index s c = None.
Proof.
  induction s as [|x s IH]; intros Hn; [reflexivity|]. simpl.
  destruct (Ascii.eqb_spec x c) as [->|Hne].
  - exfalso. apply Hn. now left.
  - rewrite IH; [reflexivity|]. intros Hin. apply Hn. now right.
Qed.

Lemma index_first s c t : ~ In c s -> index (s ++ c :: t) c = Some (length s).
Proof.
  induction s as [|x s IH]; intros Hn; simpl.
  - now rewrite Ascii.eqb_refl.
  - destruct (Ascii.eqb_spec x c) as [->|Hne].
    + exfalso. apply Hn. now left.
    + rewrite IH; [reflexivity|]. intros Hin. apply Hn. now right.
Qed.

Lemma digits_not_in s c : allDigits s = true -> isDigit c = false -> ~ In c s.
Proof.
  intros Hd Hc Hin. unfold allDigits in Hd. rewrite forallb_forall in Hd.
  specialize (Hd c Hin). congruence.
Qed.

Lemma contains_quoted_digits s c :
  allDigits s = true -> isDigit c = false -> c <> dquote ->
  contains (dquote :: s ++ [dquote]) c = false.
Proof.
  intros Hd Hc Hq. unfold contains. rewrite index_none; [reflexivity|].
  intros [Hin | Hin]; [congruence|].
  apply in_app_or in Hin as [Hin | [Hin | []]]; [| congruence].
  now apply (digits_not_in s c).
Qed.

Lemma validLoop_digits s : forall fuel,
  allDigits s = true -> (length s <= fuel)%nat -> Utf8.validLoop fuel s = true.
Proof.
  induction s as [|c s IH]; intros fuel Hd Hf; [now destruct fuel|].
  simpl in Hd. apply andb_true_iff in Hd as [Hc Hs]. apply isDigit_spec in Hc.
  destruct fuel as [|fuel]; [simpl in Hf; lia|].
  cbn [Utf8.validLoop]. change Utf8.RuneSelf with 128.
  destruct (Z.ltb_spec (code c) 128); [|lia].
  apply IH; [assumption | simpl in Hf; lia].
Qed.

(* a digit string between double quotes unquotes to the digit string *)
Lemma Unquote_quoted_digits ds :
  allDigits ds = true -> Strconv.Unquote (dquote :: ds ++ [dquote]) = (ds, None).
Proof.
  intros Hd. unfold Strconv.Unquote, Strconv.unquote.
  assert (Hlen : length (dquote :: ds ++ [dquote]) = S (S (length ds))).
  { simpl. rewrite length_app. simpl. lia. }
  rewrite Hlen. cbn [Nat.ltb Nat.leb].
  rewrite index_first by (apply digits_not_in; [assumption | reflexivity]).
  change (code dquote =? 96) with false. change (code dquote =? 34) with true.
  cbn [orb].
  assert (Hall : firstn (length ds + 2) (dquote :: ds ++ [dquote]) = dquote :: ds ++ [dquote]).
  { apply firstn_all2. rewrite Hlen. lia. }
  rewrite Hall.
  rewrite !contains_quoted_digits by (assumption || reflexivity || discriminate).
  cbn [negb andb].
  assert (Hsl : slice (dquote :: ds ++ [dquote]) 1 (length ds + 2 - 1) = ds).
  { unfold slice. cbn [skipn].
    replace (length ds + 2 - 1 - 1)%nat with (length ds + 0)%nat by lia.
    rewrite firstn_app_2. simpl. apply app_nil_r. }
  rewrite Hsl. unfold Utf8.ValidString.
  rewrite validLoop_digits by auto.
  rewrite skipn_all2 by (rewrite Hlen; lia).
  reflexivity.
Qed.

(* so does a digit string between back quotes *)
Lemma Unquote_backquoted_digits ds :
  allDigits ds = true -> Strconv.Unquote (byte 96 :: ds ++ [byte 96]) = (ds, None).
Proof.
  intros Hd. unfold Strconv.Unquote, Strconv.unquote.
  assert (Hlen : length (byte 96 :: ds ++ [byte 96]) = S (S (length ds))).
  { simpl. rewrite length_app. simpl. lia. }
  rewrite Hlen. cbn [Nat.ltb Nat.leb].
  rewrite index_first by (apply digits_not_in; [assumption | reflexivity]).
  change (code (byte 96) =? 96) with true. cbv iota.
  assert (Hall : firstn (length ds + 2) (byte 96 :: ds ++ [byte 96])
                 = byte 96 :: ds ++ [byte 96]).
  { apply firstn_all2. rewrite Hlen. lia. }
  rewrite Hall.
  assert (Hcr : contains (byte 96 :: ds ++ [byte 96]) (byte 13) = false).
  { unfold contains. rewrite index_none; [reflexivity|].
    intros [Hin | Hin]; [discriminate|].
    apply in_app_or in Hin as [Hin | [Hin | []]]; [| discriminate].
    now apply (digits_not_in ds (byte 13)). }
  rewrite Hcr. cbn [negb].
  assert (Hsl : slice (byte 96 :: ds ++ [byte 96]) 1 (length ds + 2 - 1) = ds).
  { unfold slice. cbn [skipn].
    replace (length ds + 2 - 1 - 1)%nat with (length ds + 0)%nat by lia.
    rewrite firstn_app_2. simpl. apply app_nil_r. }
  rewrite Hsl, skipn_all2 by (rewrite Hlen; lia).
  reflexivity.
Qed.

(* and one digit between single quotes *)
Lemma Unquote_single_quoted_digit c :
  isDigit c = true -> Strconv.Unquote [byte 39; c; byte 39] = ([c], None).
Proof. intros Hc. each_digit Hc; reflexivity. Qed.

(* a string that starts with a digit is not a quoted literal *)
Lemma Unquote_bare c s :
  isDigit c = true -> Strconv.Unquote (c :: s) = ([], Some Strconv.ErrSyntax).
Proof.
  intros Hc. apply isDigit_spec in Hc.
  unfold Strconv.Unquote, Strconv.unquote.
  destruct (length (c :: s) <? 2)%nat; [reflexivity|].
  destruct (index s c); [| reflexivity].
  destruct (Z.eqb_spec (code c) 96); [lia|].
  destruct (Z.eqb_spec (code c) 34); [lia|].
  destruct (Z.eqb_spec (code c) 39); [lia|].
  reflexivity.
Qed.

Lemma validDecimal_head s :
  validDecimal s = true -> exists c t, s = c :: t /\ isDigit c = true.
Proof.
  intros Hv. apply validDecimal_spec in Hv as (Hne & Hd & _).
  destruct s as [|c t]; [congruence|].
  simpl in Hd. apply andb_true_iff in Hd as [Hc _]. eauto.
Qed.

(** ** ParseJSON *)

Lemma bytes_Equal_eq a b : bytes_Equal a b = true <-> a = b.
Proof. unfold bytes_Equal. destruct (list_eq_dec ascii_dec a b); split; congruence. Qed.

Lemma isLiteral_spec b :
  isLiteral b = true <-> b = JSON_NULL \/ b = JSON_ZERO \/ b = JSON_ZERO_QUOTED.
Proof. unfold isLiteral. rewrite !orb_true_iff, !bytes_Equal_eq. tauto. Qed.

Lemma ParseString_ok_iff s : snd (ParseString s) = None <-> validDecimal s = true.
Proof.
  destruct (validDecimal s) eqn:Hv.
  - rewrite (ParseString_ok s Hv). simpl. tauto.
  - destruct (ParseString_fail s Hv) as (v & ne & _ & ->). simpl. split; discriminate.
Qed.

Lemma ParseString_err s e :
  snd (ParseString s) = Some e -> exists se, e = StringParseError se.
Proof.
  unfold ParseString. destruct (Strconv.ParseUint s) as [v [ne|]]; simpl.
  - intros [= <-]. eauto.
  - discriminate.
Qed.

(* the failure of Unquote on an input that is not a literal decides between
   the two errors and the bare parse *)
Lemma ParseJSON_unfold cfg b :
  ParseJSON cfg b
  = if isLiteral b then (0, None)
    else match Strconv.Unquote b with
         | (_, Some e) =>
           if AllowUnquoted cfg then ParseString b
           else (0, Some (UnquotedIntegerError
                            (mkSnowflakeError
                               "unquoted integer but unquoted integers are not allowed"
                               (causeErr e))))
         | (s, None) => ParseString s
         end.
Proof.
  unfold ParseJSON, isLiteral.
  destruct (bytes_Equal b JSON_NULL || bytes_Equal b JSON_ZERO
            || bytes_Equal b JSON_ZERO_QUOTED); [reflexivity|].
  destruct (Strconv.Unquote b) as [s [e|]]; [| reflexivity].
  now destruct (AllowUnquoted cfg).
Qed.

Lemma ParseJSON_ok_iff cfg b : snd (ParseJSON cfg b) = None <-> accepts cfg b.
Proof.
  rewrite ParseJSON_unfold. unfold accepts.
  destruct (isLiteral b) eqn:Hlit.
  - apply isLiteral_spec in Hlit. simpl. split; [intros _ | reflexivity].
    destruct Hlit as [H | [H | H]]; auto.
  - assert (Hnl : ~ (b = JSON_NULL \/ b = JSON_ZERO \/ b = JSON_ZERO_QUOTED)).
    { rewrite <- isLiteral_spec. congruence. }
    destruct (Strconv.Unquote b) as [s [e|]] eqn:Hu.
    + destruct (AllowUnquoted cfg); simpl.
      * rewrite ParseString_ok_iff. split; [auto 6|].
        intros [H | [H | [H | [(s' & H & _) | [_ H]]]]];
          try (exfalso; apply Hnl; tauto); [discriminate | assumption].
      * split; [discriminate|].
        intros [H | [H | [H | [(s' & H & _) | [H _]]]]];
          try (exfalso; apply Hnl; tauto); discriminate.
    + rewrite ParseString_ok_iff. split.
      * intros Hv. right; right; right; left. eauto.
      * intros [H | [H | [H | [(s' & H & Hv) | [_ H]]]]];
          try (exfalso; apply Hnl; tauto).
        -- now injection H as <-.
        -- destruct (validDecimal_head b H) as (c & t & -> & Hc).
           rewrite Unquote_bare in Hu by assumption. discriminate.
Qed.

Lemma ParseJSON_error_kind cfg b e :
  snd (ParseJSON cfg b) = Some e ->
  if negb (AllowUnquoted cfg) then
    match snd (Strconv.Unquote b) with
    | Some ue => e = UnquotedIntegerError
                      (mkSnowflakeError
                         "unquoted integer but unquoted integers are not allowed"
                         (causeErr ue))
    | None => exists se, e = StringParseError se
    end
  else exists se, e = StringParseError se.
Proof.
  rewrite ParseJSON_unfold.
  destruct (isLiteral b); [discriminate|].
  destruct (Strconv.Unquote b) as [s [ue|]]; cbn [snd].
  - destruct (AllowUnquoted cfg); cbn [negb].
    + apply ParseString_err.
    + now intros [= <-].
  - intros He. destruct (AllowUnquoted cfg); cbn [negb]; now apply ParseString_err in He.
Qed.

(** C1, as the code has it: ParseJSON succeeds exactly on [null], [0],
    ["0"], on a quoted literal in Go syntax (what strconv.Unquote accepts:
    double-quoted, back-quoted or a single-quoted character, with Go's escape
    sequences) whose value is a digit string denoting at most 2^64-1, and,
    when AllowUnquoted is set, on such a digit string left bare; a digit
    string between double quotes is such a literal.  A failure is an
    UnquotedIntegerError, wrapping the error of Unquote, exactly when
    Unquote failed while AllowUnquoted is false, and a StringParseError
    otherwise. *)
Theorem ParseJSON_spec (cfg : Config) (b : gostring) :
  (snd (ParseJSON cfg b) = None <-> accepts cfg b) /\
  (forall ds, validDecimal ds = true ->
              Strconv.Unquote (dquote :: ds ++ [dquote]) = (ds, None)) /\
  (forall e, snd (ParseJSON cfg b) = Some e ->
     if negb (AllowUnquoted cfg) then
       match snd (Strconv.Unquote b) with
       | Some ue => e = UnquotedIntegerError
                         (mkSnowflakeError
                            "unquoted integer but unquoted integers are not allowed"
                            (causeErr ue))
       | None => exists se, e = StringParseError se
       end
     else exists se, e = StringParseError se).
Proof.
  split; [apply ParseJSON_ok_iff | split].
  - intros ds Hv. apply validDecimal_spec in Hv as (_ & Hd & _).
    now apply Unquote_quoted_digits.
  - intros e. apply ParseJSON_error_kind.
Qed.

Lemma ParseJSON_spec_witness :
  accepts (mkConfig false 1420070400000) (dquote :: bytes_of "10" ++ [dquote]) /\
  Strconv.Unquote (dquote :: bytes_of "10" ++ [dquote]) = (bytes_of "10", None) /\
  exists ue,
    UnquotedIntegerError
      (mkSnowflakeError "unquoted integer but unquoted integers are not allowed"
                        (causeErr Strconv.ErrSyntax))
    = UnquotedIntegerError
        (mkSnowflakeError "unquoted integer but unquoted integers are not allowed"
                          (causeErr ue)).
Proof.
  split; [| split].
  - apply (proj1 (proj1 (ParseJSON_spec (mkConfig false 1420070400000)
                           (dquote :: bytes_of "10" ++ [dquote])))).
    reflexivity.
  - apply (proj1 (proj2 (ParseJSON_spec defaultConfig [])) (bytes_of "10")).
    reflexivity.
  - exists Strconv.ErrSyntax.
    apply (proj2 (proj2 (ParseJSON_spec (mkConfig false 1420070400000) (bytes_of "10")))).
    reflexivity.
Defined.

(* The specification's list of accepted inputs leaves out the other
   literals of Go syntax: a back-quoted numeral parses in either mode. *)
Lemma ParseJSON_backquoted :
  ~ (snd (ParseJSON defaultConfig (bytes_of "`12`")) = None
     <-> specAccepts defaultConfig (bytes_of "`12`")).
Proof.
  intros [H _]. specialize (H eq_refl).
  destruct H as [H | [H | [H | [(ds & H & _) | [_ H]]]]]; discriminate.
Qed.

Example ParseJSON_backquoted_value cfg : ParseJSON cfg (bytes_of "`12`") = (12, None).
Proof. destruct cfg as [[|] e]; reflexivity. Qed.

Example ParseJSON_single_quoted cfg : ParseJSON cfg (bytes_of "'7'") = (7, None).
Proof. destruct cfg as [[|] e]; reflexivity. Qed.

Example ParseJSON_hex_escape cfg :
  ParseJSON cfg (dquote :: bytes_of "\x31\x32" ++ [dquote]) = (12, None).
Proof. destruct cfg as [[|] e]; reflexivity. Qed.

(* the table of TestParseJSON: input, AllowUnquoted, whether an error is
   wanted *)
Example ParseJSON_tests :
  forallb (fun '(input, allow, wantsErr) =>
             Bool.eqb wantsErr
               (match snd (ParseJSON (mkConfig allow 1420070400000) input) with
                | Some _ => true
                | None => false
                end))
    [(bytes_of "10", false, true);
     (dquote :: bytes_of "10" ++ [dquote], false, false);
     (bytes_of "175928847299117209", false, true);
     (bytes_of "175928847299117209", true, false);
     (dquote :: bytes_of "175928847299117209" ++ [dquote], false, false);
     (bytes_of "1000000000000000000000000", false, true);
     (bytes_of "1000000000000000000000000", true, true);
     (dquote :: bytes_of "1000000000000000000000000" ++ [dquote], false, true);
     (bytes_of "-1", false, true);
     (bytes_of "-1", true, true);
     (dquote :: bytes_of "-1" ++ [dquote], false, true);
     (dquote :: bytes_of "0" ++ [dquote], false, false);
     (bytes_of "0", false, false);
     (bytes_of "null", true, false);
     (bytes_of "null", false, false);
     (bytes_of "integer", true, true);
     (bytes_of ".", true, true);
     (bytes_of "3.14", true, true)]
  = true.
Proof. vm_compute. reflexivity. Qed.

(** C4: [null], [0] and ["0"] parse to the value 0 without error, whatever
    AllowUnquoted is, before any unquoting or digit parsing. *)
Theorem ParseJSON_literals (cfg : Config) :
  ParseJSON cfg (bytes_of "null") = (0, None) /\
  ParseJSON cfg (bytes_of "0") = (0, None) /\
  ParseJSON cfg [dquote; byte 48; dquote] = (0, None).
Proof. repeat split. Qed.

(** ** UnmarshalJSON *)

(** C3: UnmarshalJSON stores the result of ParseJSON when the parse
    succeeds; when it fails it returns the error of ParseJSON and the stored
    value is the one from before the call. *)
Theorem UnmarshalJSON_spec (cfg : Config) (s : Snowflake) (b : gostring) :
  match ParseJSON cfg b with
  | (v, None) => UnmarshalJSON cfg s b = (v, None)
  | (_, Some e) => UnmarshalJSON cfg s b = (s, Some e)
  end.
Proof.
  unfold UnmarshalJSON. now destruct (ParseJSON cfg b) as [v [e|]].
Qed.

(* the two calls of TestUnmarshalJSON *)
Example UnmarshalJSON_test :
  UnmarshalJSON defaultConfig New (bytes_of "175928847299117209")
  = (175928847299117209, None) /\
  fst (UnmarshalJSON defaultConfig 175928847299117209
         (bytes_of "1000000000000000000000000")) = 175928847299117209 /\
  snd (UnmarshalJSON defaultConfig 175928847299117209
         (bytes_of "1000000000000000000000000")) <> None.
Proof.
  split; [| split]; [vm_compute; reflexivity .. |].
  vm_compute. discriminate.
Qed.

(** ** The loops never run out of fuel

    Each round of the loops of ValidString, unquote and appendQuotedWith
    consumes at least one byte, so their results do not depend on the fuel
    once it reaches the length of what is left to read. *)

Lemma first_cases b :
  In (Utf8.first b)
     [Utf8.as_; Utf8.xx; Utf8.s1; Utf8.s2; Utf8.s3; Utf8.s4; Utf8.s5; Utf8.s6; Utf8.s7].
Proof.
  unfold Utf8.first.
  repeat match goal with
         | |- context [if ?c then _ else _] => destruct c
         end; simpl; tauto.
Qed.

Lemma first_not_ascii b : 128 <= b -> Utf8.first b <> Utf8.as_.
Proof.
  intros Hb. unfold Utf8.first.
  destruct (Z.ltb_spec b 128); [lia|].
  repeat match goal with
         | |- context [if ?c then _ else _] => destruct c
         end; discriminate.
Qed.

Lemma DecodeRuneInString_size c s :
  (1 <= snd (Utf8.DecodeRuneInString (c :: s)) <= length (c :: s))%nat.
Proof.
  unfold Utf8.DecodeRuneInString.
  pose proof (first_cases (code c)) as Hx. simpl in Hx.
  repeat (destruct Hx as [Hx | Hx]; [rewrite <- Hx; clear Hx |]); [.. | contradiction].
  all: cbv beta iota zeta delta - [code Z.ltb Z.lor Z.land Z.shiftl Z.shiftr length Nat.ltb Nat.leb orb];
       simpl length.
  all: repeat match goal with
         | |- context [if ?b then _ else _] => destruct b eqn:?
         | |- context [match ?l with [] => _ | _ :: _ => _ end] => destruct l
         end; simpl snd; simpl length in *; try lia.
Qed.

Lemma length_skipn_lt (n : nat) (s : gostring) :
  (1 <= n <= length s)%nat -> (length (skipn n s) < length s)%nat.
Proof. intros H. rewrite length_skipn. lia. Qed.

Lemma UnquoteChar_tail s quote r multibyte tail :
  Strconv.UnquoteChar s quote = Some (r, multibyte, tail) ->
  (length tail < length s)%nat.
Proof.
  unfold Strconv.UnquoteChar.
  destruct s as [|c0 s1]; [discriminate|].
  destruct (Ascii.eqb c0 quote && ((code quote =? 39) || (code quote =? 34)));
    [discriminate|].
  destruct (Utf8.RuneSelf <=? code c0).
  { pose proof (DecodeRuneInString_size c0 s1) as Hsz.
    destruct (Utf8.DecodeRuneInString (c0 :: s1)) as [r' size]. cbn [snd] in Hsz.
    intros [= _ _ <-]. now apply length_skipn_lt. }
  destruct (negb (code c0 =? 92)); [intros [= _ _ <-]; simpl; lia|].
  destruct s1 as [|c1 s]; [discriminate|].
  repeat match goal with
         | |- (if ?b then _ else _) = _ -> _ => destruct b eqn:?
         | |- match ?o with Some _ => _ | None => _ end = _ -> _ => destruct o
         | |- Some _ = Some _ -> _ => intros [= _ _ <-]
         | |- None = Some _ -> _ => discriminate
         end;
    rewrite ?length_skipn; simpl length; try lia;
    destruct s as [|? [|? ?]]; simpl; lia.
Qed.

Lemma unquoteLoop_fuel quote : forall fuel1 fuel2 in_ buf,
  (length in_ <= fuel1)%nat -> (length in_ <= fuel2)%nat ->
  Strconv.unquoteLoop fuel1 quote in_ buf = Strconv.unquoteLoop fuel2 quote in_ buf.
Proof.
  induction fuel1 as [|fuel1 IH]; intros fuel2 in_ buf H1 H2.
  - destruct in_; [| simpl in H1; lia]. now destruct fuel2.
  - destruct in_ as [|c rest]; [now destruct fuel2|].
    destruct fuel2 as [|fuel2]; [simpl in H2; lia|].
    cbn [Strconv.unquoteLoop].
    destruct (Ascii.eqb c quote); [reflexivity|].
    destruct (Strconv.UnquoteChar (c :: rest) quote) as [[[r m] rem]|] eqn:Hu;
      [| reflexivity].
    apply UnquoteChar_tail in Hu.
    destruct (code c =? 10); [reflexivity|].
    destruct (code quote =? 39); [reflexivity|].
    apply IH; simpl in *; lia.
Qed.

Lemma validLoop_fuel : forall fuel1 fuel2 s,
  (length s <= fuel1)%nat -> (length s <= fuel2)%nat ->
  Utf8.validLoop fuel1 s = Utf8.validLoop fuel2 s.
Proof.
  induction fuel1 as [|fuel1 IH]; intros fuel2 s H1 H2.
  - destruct s; [| simpl in H1; lia]. now destruct fuel2.
  - destruct s as [|c rest]; [now destruct fuel2|].
    destruct fuel2 as [|fuel2]; [simpl in H2; lia|].
    cbn [Utf8.validLoop].
    change Utf8.RuneSelf with 128.
    destruct (Z.ltb_spec (code c) 128) as [Hlt|Hge]; [apply IH; simpl in *; lia|].
    destruct (Utf8.first (code c) =? Utf8.xx) eqn:Hxx; [reflexivity|].
    assert (Hsz : (1 <= Z.to_nat (Z.land (Utf8.first (code c)) 7))%nat).
    { pose proof (first_cases (code c)) as Hx.
      pose proof (first_not_ascii (code c) Hge) as Hna. simpl in Hx.
      repeat (destruct Hx as [Hx | Hx]; [rewrite <- Hx in *; clear Hx |]);
        [.. | contradiction]; try discriminate; try congruence; vm_compute; lia. }
    destruct (length (c :: rest) <? Z.to_nat (Z.land (Utf8.first (code c)) 7))%nat eqn:Hlen;
      [reflexivity|].
    apply Nat.ltb_ge in Hlen.
    assert (Hsk : (length (skipn (Z.to_nat (Z.land (Utf8.first (code c)) 7)) (c :: rest))
                   <= length rest)%nat).
    { pose proof (length_skipn_lt _ (c :: rest) (conj Hsz Hlen)). simpl in *. lia. }
    repeat match goal with
           | |- (if ?b then _ else _) = _ => destruct b
           end; try reflexivity; apply IH; simpl in *; lia.
Qed.

Section QuoteFuel.

Variable isPrintTables : Z -> bool.

Lemma quoteLoop_fuel quote : forall fuel1 fuel2 buf s,
  (length s <= fuel1)%nat -> (length s <= fuel2)%nat ->
  Strconv.quoteLoop isPrintTables fuel1 buf s quote
  = Strconv.quoteLoop isPrintTables fuel2 buf s quote.
Proof.
  induction fuel1 as [|fuel1 IH]; intros fuel2 buf s H1 H2.
  - destruct s; [| simpl in H1; lia]. now destruct fuel2.
  - destruct s as [|c rest]; [now destruct fuel2|].
    destruct fuel2 as [|fuel2]; [simpl in H2; lia|].
    cbn [Strconv.quoteLoop].
    pose proof (DecodeRuneInString_size c rest) as Hsz.
    destruct (Utf8.RuneSelf <=? code c).
    + destruct (Utf8.DecodeRuneInString (c :: rest)) as [r width]. cbn [snd] in Hsz.
      pose proof (length_skipn_lt width (c :: rest) Hsz) as Hsk.
      cbn [length] in H1, H2, Hsk.
      destruct ((width =? 1)%nat && (r =? Utf8.RuneError)); apply IH; lia.
    + clear Hsz. cbn [length] in H1, H2.
      destruct ((1 =? 1)%nat && (code c =? Utf8.RuneError));
        apply IH; cbn [skipn]; lia.
Qed.

End QuoteFuel.

(** * Further properties of the package *)

(** ** The layout of the fields *)

(** X1: the four fields tile the 64 bits: each accessor stays within the
    width of its field and the value is the sum of the fields at their
    offsets. *)
Theorem fields_layout (v : Snowflake) :
  is_uint64 v ->
  0 <= Sequence v < 2 ^ 12 /\
  0 <= ProcessID v < 2 ^ 5 /\
  0 <= WorkerID v < 2 ^ 5 /\
  0 <= Z.shiftr v 22 < 2 ^ 42 /\
  v = layout (Z.shiftr v 22) (WorkerID v) (ProcessID v) (Sequence v).
Proof.
  intros [H0 H1].
  pose proof (fields_partition v) as Hp.
  rewrite Sequence_mod, ProcessID_mod, WorkerID_mod in *.
  pose proof (Z.mod_pos_bound v (2 ^ 12) ltac:(lia)).
  pose proof (Z.mod_pos_bound (v / 2 ^ 12) (2 ^ 5) ltac:(lia)).
  pose proof (Z.mod_pos_bound (v / 2 ^ 17) (2 ^ 5) ltac:(lia)).
  rewrite Z.shiftr_div_pow2 in * by lia.
  assert (0 <= v / 2 ^ 22 < 2 ^ 42).
  { split; [apply Z.div_pos; lia | apply Z.div_lt_upper_bound; lia]. }
  unfold layout. repeat split; lia.
Qed.

Lemma fields_layout_witness :
  1363292549053284505 = layout (Z.shiftr 1363292549053284505 22) 1 0 153.
Proof.
  apply (fields_layout 1363292549053284505).
  unfold is_uint64. lia.
Defined.



(** ** Timestamps *)

(** X3: when Epoch leaves room for 42 bits of milliseconds, UnixMilli does
    not wrap around, it is Epoch plus the timestamp field, and it orders
    snowflakes as their values do. *)
Theorem UnixMilli_monotone (cfg : Config) (s1 s2 : Snowflake) :
  0 <= Epoch cfg -> Epoch cfg + 2 ^ 42 <= 2 ^ 64 ->
  is_uint64 s1 -> is_uint64 s2 -> s1 <= s2 ->
  UnixMilli cfg s1 = s1 / 2 ^ 22 + Epoch cfg /\
  Epoch cfg <= UnixMilli cfg s1 <= UnixMilli cfg s2.
Proof.
  intros HE0 HE [H10 H11] [H20 H21] Hle.
  assert (Hts : forall s, 0 <= s < 2 ^ 64 -> UnixMilli cfg s = s / 2 ^ 22 + Epoch cfg).
  { intros s Hs. unfold UnixMilli. rewrite Z.shiftr_div_pow2 by lia.
    assert (0 <= s / 2 ^ 22 < 2 ^ 42).
    { split; [apply Z.div_pos; lia | apply Z.div_lt_upper_bound; lia]. }
    apply uint64_small. unfold is_uint64. lia. }
  rewrite !Hts by lia.
  pose proof (Z.div_le_mono s1 s2 (2 ^ 22) ltac:(lia) Hle).
  pose proof (Z.div_pos s1 (2 ^ 22) ltac:(lia) ltac:(lia)).
  lia.
Qed.

Lemma UnixMilli_monotone_witness :
  UnixMilli defaultConfig 175928847299117209
  <= UnixMilli defaultConfig 1363292549053284505.
Proof.
  apply (UnixMilli_monotone defaultConfig 175928847299117209 1363292549053284505);
    unfold is_uint64; simpl; lia.
Defined.

(** X4: for every time and every Epoch, the timestamp read back from
    ParseTime is the millisecond offset from Epoch reduced modulo 2^42,
    plus Epoch: the shift by 22 keeps the low 42 bits of the offset. *)
Theorem UnixMilli_ParseTime_mod (cfg : Config) (t : GoTime.Time) :
  UnixMilli cfg (ParseTime cfg t)
  = uint64 ((GoTime.UnixMilli t - Epoch cfg) mod 2 ^ 42 + Epoch cfg).
Proof.
  unfold UnixMilli. rewrite ParseTime_mod.
  change (2 ^ 64) with (2 ^ 42 * 2 ^ 22) at 1.
  rewrite Z.mul_mod_distr_r by lia.
  now rewrite Z.shiftr_div_pow2, Z.div_mul by lia.
Qed.

Lemma int64_small z : is_int64 z -> int64 z = z.
Proof.
  unfold is_int64, int64. intros H.
  rewrite Z.mod_small by lia. lia.
Qed.

Lemma int64_congr a b : a mod 2 ^ 64 = b mod 2 ^ 64 -> int64 a = int64 b.
Proof.
  intros H. unfold int64.
  rewrite <- (Zplus_mod_idemp_l a), <- (Zplus_mod_idemp_l b), H.
  reflexivity.
Qed.

Lemma int64_add_l a b : int64 (int64 a + b) = int64 (a + b).
Proof.
  apply int64_congr.
  now rewrite <- Zplus_mod_idemp_l, int64_mod, Zplus_mod_idemp_l.
Qed.

(* time.UnixMilli followed by the method UnixMilli is the identity *)
Lemma ofUnixMilli_UnixMilli m :
  is_int64 m -> GoTime.UnixMilli (GoTime.ofUnixMilli m) = m.
Proof.
  intros Hm. unfold GoTime.ofUnixMilli, GoTime.UnixMilli.
  pose proof (Z.quot_rem' m 1000) as Hqr.
  destruct (Z.ltb_spec (Z.rem m 1000 * 1000000) 0) as [Hneg|Hpos];
    cbn [GoTime.unixSec GoTime.nsec]; rewrite int64_add_l.
  - replace ((Z.rem m 1000 * 1000000 + 1000000000) / 1000000)
      with (Z.rem m 1000 + 1000)
      by (apply (Z.div_unique _ _ _ 0); lia).
    replace ((Z.quot m 1000 - 1) * 1000 + (Z.rem m 1000 + 1000)) with m by lia.
    now apply int64_small.
  - rewrite Z.div_mul by lia.
    replace (Z.quot m 1000 * 1000 + Z.rem m 1000) with m by lia.
    now apply int64_small.
Qed.

Lemma Time_millis cfg s : GoTime.UnixMilli (Time_ cfg s) = int64 (UnixMilli cfg s).
Proof.
  unfold Time_. rewrite ofUnixMilli_UnixMilli by apply int64_range.
  apply int64_congr. unfold UnixMilli, uint64.
  rewrite Z.mod_mod by lia.
  rewrite <- Zplus_mod_idemp_l, <- (Zplus_mod_idemp_r (int64 _)), !int64_mod.
  now rewrite Zplus_mod_idemp_l, Zplus_mod_idemp_r.
Qed.

(** X5: the Unix millisecond of the time returned by Time is the value of
    UnixMilli read as an int64. *)
Theorem Time_UnixMilli (cfg : Config) (s : Snowflake) :
  GoTime.UnixMilli (Time_ cfg s) = int64 (UnixMilli cfg s).
Proof. apply Time_millis. Qed.

(** X6: ParseTime of the time returned by Time is the snowflake with its
    low 22 bits (worker id, process id and sequence) cleared, whatever
    Epoch is. *)
Theorem ParseTime_Time (cfg : Config) (s : Snowflake) :
  is_uint64 s ->
  ParseTime cfg (Time_ cfg s) = s - s mod 2 ^ 22.
Proof.
  intros [H0 H1].
  rewrite ParseTime_mod, Time_millis. unfold UnixMilli, uint64.
  rewrite <- Z.mul_mod_idemp_l, <- Zminus_mod_idemp_l, int64_mod by lia.
  rewrite Z.mod_mod, Zminus_mod_idemp_l, Z.mul_mod_idemp_l by lia.
  replace (Z.shiftr s 22 + Epoch cfg - Epoch cfg) with (Z.shiftr s 22) by lia.
  rewrite Z.shiftr_div_pow2 by lia.
  pose proof (Z.div_mod s (2 ^ 22) ltac:(lia)).
  pose proof (Z.mod_pos_bound s (2 ^ 22) ltac:(lia)).
  rewrite Z.mod_small by lia. lia.
Qed.

Lemma ParseTime_Time_witness :
  ParseTime defaultConfig (Time_ defaultConfig 1363292549053284505)
  = 1363292549053284505 - 1363292549053284505 mod 2 ^ 22.
Proof.
  apply (ParseTime_Time defaultConfig 1363292549053284505).
  unfold is_uint64. lia.
Defined.

(** X7: when Epoch plus 42 bits of milliseconds stays below 2^63, the time
    returned by Time has Unix as its seconds and the rest of UnixMilli as
    its milliseconds within the second. *)
Theorem Time_Unix (cfg : Config) (s : Snowflake) :
  0 <= Epoch cfg -> Epoch cfg + 2 ^ 42 <= 2 ^ 63 -> is_uint64 s ->
  GoTime.unixSec (Time_ cfg s) = Unix cfg s /\
  GoTime.nsec (Time_ cfg s) = (UnixMilli cfg s mod 1000) * 1000000.
Proof.
  intros HE0 HE [H0 H1]. unfold Time_, Unix, UnixMilli.
  rewrite int64_add_l.
  assert (Hts : 0 <= Z.shiftr s 22 < 2 ^ 42).
  { rewrite Z.shiftr_div_pow2 by lia.
    split; [apply Z.div_pos; lia | apply Z.div_lt_upper_bound; lia]. }
  assert (Hi : int64 (Epoch cfg) = Epoch cfg) by (apply int64_small; unfold is_int64; lia).
  rewrite <- (Z.add_comm (int64 (Epoch cfg))), int64_add_l, Z.add_comm.
  rewrite int64_small by (unfold is_int64; lia).
  rewrite uint64_small by (unfold is_uint64; lia).
  set (m := Z.shiftr s 22 + Epoch cfg). assert (Hm : 0 <= m) by (unfold m; lia).
  unfold GoTime.ofUnixMilli.
  rewrite Z.quot_div_nonneg, Z.rem_mod_nonneg by lia.
  pose proof (Z.mod_pos_bound m 1000 ltac:(lia)).
  destruct (Z.ltb_spec (m mod 1000 * 1000000) 0); [lia|].
  split; reflexivity.
Qed.

Lemma Time_Unix_witness :
  GoTime.unixSec (Time_ defaultConfig 1363292549053284505) = 1745104672.
Proof.
  apply (Time_Unix defaultConfig 1363292549053284505); unfold is_uint64; simpl; lia.
Defined.

(** ** Bitmap *)

(* the loop of Bitmap fills every index with the test of Bit *)
Lemma Bitmap_map s :
  Bitmap s
  = map (fun i => negb (Z.land s (uint64 (Z.shiftl 1 (Z.of_nat i))) =? 0)) (seq 0 64).
Proof. reflexivity. Qed.

(** X8: Bitmap has 64 entries and entry i is Bit(i), for every index below
    64. *)
Theorem Bitmap_Bit (s : Snowflake) (i : Z) :
  0 <= i < 64 ->
  length (Bitmap s) = 64%nat /\
  nth (Z.to_nat i) (Bitmap s) false = Bit s i.
Proof.
  intros Hi. rewrite Bitmap_map. split.
  - now rewrite length_map, length_seq.
  - set (f := fun i : nat => negb (Z.land s (uint64 (Z.shiftl 1 (Z.of_nat i))) =? 0)).
    rewrite (nth_indep _ false (f O)) by (rewrite length_map, length_seq; lia).
    rewrite map_nth, seq_nth by lia.
    unfold f, Bit. rewrite Nat.add_0_l, Z2Nat.id by lia.
    destruct (Z.ltb_spec i 64); [reflexivity | lia].
Qed.

Lemma Bitmap_Bit_witness :
  length (Bitmap 175928847299117209) = 64%nat /\
  nth (Z.to_nat 57) (Bitmap 175928847299117209) false = Bit 175928847299117209 57.
Proof. apply (Bitmap_Bit 175928847299117209 57). lia. Defined.

Lemma fromBits_testbit v n : forall k,
  fromBits (map (fun i => Z.testbit v (Z.of_nat i)) (seq k n))
  = (v / 2 ^ Z.of_nat k) mod 2 ^ Z.of_nat n.
Proof.
  induction n as [|n IH]; intros k.
  - simpl. now rewrite Z.mod_1_r.
  - cbn [seq map fromBits fold_right]. fold (fromBits (map (fun i => Z.testbit v (Z.of_nat i)) (seq (S k) n))).
    rewrite IH.
    rewrite (Nat2Z.inj_succ n), Z.pow_succ_r by lia.
    rewrite Z.rem_mul_r by lia.
    assert (E : v / 2 ^ Z.of_nat (S k) = v / 2 ^ Z.of_nat k / 2).
    { rewrite Nat2Z.inj_succ, Z.pow_succ_r, Z.mul_comm by lia.
      rewrite Z.div_div by lia. reflexivity. }
    rewrite E. f_equal.
    rewrite <- Z.bit0_mod, <- Z.shiftr_div_pow2, Z.shiftr_spec by lia.
    now rewrite Z.add_0_l.
Qed.

(** X9: the bitmap determines the value: reading the 64 entries as binary
    digits, least significant first, gives the snowflake back. *)
Theorem Bitmap_value (v : Snowflake) :
  is_uint64 v -> fromBits (Bitmap v) = v.
Proof.
  intros [H0 H1]. rewrite Bitmap_map.
  rewrite (map_ext_in _ (fun i => Z.testbit v (Z.of_nat i))).
  - rewrite fromBits_testbit. change (2 ^ Z.of_nat 0) with 1.
    rewrite Z.div_1_r. apply Z.mod_small. change (Z.of_nat 64) with 64. lia.
  - intros i Hi. apply in_seq in Hi.
    pose proof (Bit_testbit v (Z.of_nat i) ltac:(lia)) as Hb.
    unfold Bit in Hb.
    destruct (Z.ltb_spec (Z.of_nat i) 64); [exact Hb | lia].
Qed.

Lemma Bitmap_value_witness : fromBits (Bitmap 175928847299117209) = 175928847299117209.
Proof. apply (Bitmap_value 175928847299117209). unfold is_uint64. lia. Defined.

(** ** The decimal codec *)

Lemma digitPrefix_allDigits s : allDigits (digitPrefix s) = true.
Proof.
  induction s as [|c s IH]; [reflexivity|]. simpl.
  destruct (isDigit c) eqn:Hc; [| reflexivity].
  simpl. now rewrite Hc.
Qed.

Lemma digitPrefix_all s : allDigits s = true -> digitPrefix s = s.
Proof.
  induction s as [|c s IH]; [reflexivity|]. simpl.
  intros H. apply andb_true_iff in H as [Hc Hs].
  now rewrite Hc, IH.
Qed.

(* what the loop of ParseUint returns, by the digits it meets before a byte
   that is not a digit *)
Lemma parseLoop_classify s0 s : forall n,
  0 <= n <= maxUint64 ->
  Strconv.parseLoop s0 n s
  = if maxUint64 <? digitsAcc n (digitPrefix s)
    then (maxUint64, Some (Strconv.rangeError "ParseUint" s0))
    else if allDigits s then (digitsAcc n s, None)
         else (0, Some (Strconv.syntaxError "ParseUint" s0)).
Proof.
  induction s as [|c s IH]; intros n Hn.
  - cbn [digitPrefix allDigits forallb Strconv.parseLoop].
    change (digitsAcc n []) with n.
    destruct (Z.ltb_spec maxUint64 n); [lia | reflexivity].
  - cbn [digitPrefix allDigits forallb]. fold (allDigits s).
    destruct (isDigit c) eqn:Hc.
    + apply isDigit_spec in Hc. rewrite digitsAcc_cons. cbn [andb].
      pose proof (digitsAcc_ge (digitPrefix s) (n * 10 + (code c - 48)) ltac:(lia)
                    (digitPrefix_allDigits s)) as Hge.
      destruct (Z_le_gt_dec (n * 10 + (code c - 48)) maxUint64) as [Hfit|Hov].
      * rewrite parseLoop_digit by lia. rewrite digitsAcc_cons. apply IH. lia.
      * destruct (Z.ltb_spec maxUint64 (digitsAcc (n * 10 + (code c - 48)) (digitPrefix s)));
          [| lia].
        cbn [Strconv.parseLoop].
        destruct (Z.leb_spec 48 (code c)); [|lia].
        destruct (Z.leb_spec (code c) 57); [|lia]. cbn [andb].
        rewrite (uint8_small (code c - 48)) by lia.
        change (uint8 Strconv.base) with 10.
        destruct (Z.leb_spec 10 (code c - 48)); [lia|].
        rewrite cutoff_eq, maxVal_eq. unfold maxUint64 in *.
        destruct (Z.leb_spec 1844674407370955162 n); [reflexivity|].
        change Strconv.base with 10.
        rewrite (uint64_small (n * 10)) by (unfold is_uint64; lia).
        assert (Hw : uint64 (n * 10 + (code c - 48)) = n * 10 + (code c - 48) - 2 ^ 64).
        { unfold uint64. symmetry. apply (Z.mod_unique _ _ 1); lia. }
        rewrite Hw.
        destruct (Z.ltb_spec (n * 10 + (code c - 48) - 2 ^ 64) (n * 10)); [|lia].
        reflexivity.
    + change (digitsAcc n []) with n.
      destruct (Z.ltb_spec maxUint64 n); [lia|]. cbn [andb].
      cbn [Strconv.parseLoop]. unfold isDigit in Hc. rewrite Hc.
      destruct ((97 <=? Strconv.lower (code c)) && (Strconv.lower (code c) <=? 122)) eqn:Hlet;
        [| reflexivity].
      apply andb_true_iff in Hlet as [H1 H2]. apply Z.leb_le in H1, H2.
      rewrite (uint8_small (Strconv.lower (code c) - 97 + 10)) by lia.
      change (uint8 Strconv.base) with 10.
      destruct (Z.leb_spec 10 (Strconv.lower (code c) - 97 + 10)); [reflexivity | lia].
Qed.

Lemma ParseString_eq (s : gostring) :
  ParseString s
  = if validDecimal s then (digitsVal s, None)
    else (0, Some (StringParseError
                     (mkSnowflakeError "unable to parse string as integer"
                        (causeNum
                           (Strconv.mkNumError "ParseUint" s
                              (if maxUint64 <? digitsVal (digitPrefix s)
                               then Strconv.ErrRange else Strconv.ErrSyntax)))))).
Proof.
  destruct (validDecimal s) eqn:Hv; [now apply ParseString_ok|].
  unfold ParseString, Strconv.ParseUint.
  destruct s as [|c s]; [reflexivity|].
  rewrite parseLoop_classify by (unfold maxUint64; lia).
  fold (digitsVal (digitPrefix (c :: s))).
  destruct (Z.ltb_spec maxUint64 (digitsVal (digitPrefix (c :: s)))) as [Hov|Hfit];
    [reflexivity|].
  destruct (allDigits (c :: s)) eqn:Hd; [| reflexivity].
  exfalso. rewrite digitPrefix_all in Hfit by assumption.
  unfold validDecimal in Hv. rewrite Hd in Hv. cbn [andb] in Hv.
  apply Z.leb_gt in Hv. lia.
Qed.

(** X10: ParseString as a function of its input: the denoted value on a
    valid decimal; otherwise the value 0 and a StringParseError wrapping a
    NumError of ParseUint that records the whole input, with ErrRange when
    the leading digits already exceed 2^64-1 and ErrSyntax in every other
    case (empty input, or a byte that is not a digit met first). *)
Theorem ParseString_error_kind (s : gostring) :
  ParseString s
  = if validDecimal s then (digitsVal s, None)
    else (0, Some (StringParseError
                     (mkSnowflakeError "unable to parse string as integer"
                        (causeNum
                           (Strconv.mkNumError "ParseUint" s
                              (if maxUint64 <? digitsVal (digitPrefix s)
                               then Strconv.ErrRange else Strconv.ErrSyntax)))))).
Proof. apply ParseString_eq. Qed.

(** X11: a leading zero does not change what ParseString reads: before a
    non-empty string it changes neither the value nor whether the parse
    succeeds. *)
Theorem ParseString_leading_zero (s : gostring) :
  s <> [] ->
  fst (ParseString (byte 48 :: s)) = fst (ParseString s) /\
  (snd (ParseString (byte 48 :: s)) = None <-> snd (ParseString s) = None).
Proof.
  intros Hne.
  assert (Hv : validDecimal (byte 48 :: s) = validDecimal s).
  { destruct s as [|c s]; [congruence | reflexivity]. }
  assert (Hd : digitsVal (byte 48 :: s) = digitsVal s) by reflexivity.
  rewrite !ParseString_eq, Hv, Hd.
  destruct (validDecimal s); cbn [fst snd]; split; try reflexivity.
  split; discriminate.
Qed.

Lemma ParseString_leading_zero_witness :
  fst (ParseString (bytes_of "0007")) = fst (ParseString (bytes_of "007")).
Proof.
  apply (ParseString_leading_zero (bytes_of "007")). discriminate.
Defined.

(** ** Canonical numerals *)

Lemma code_inj c d : code c = code d -> c = d.
Proof. intros H. rewrite <- (byte_code c), <- (byte_code d). now rewrite H. Qed.

(* continuing n by k digits lands in the k-digit block of n *)
Lemma digitsAcc_bounds s : forall n,
  0 <= n -> allDigits s = true ->
  n * 10 ^ Z.of_nat (length s) <= digitsAcc n s < (n + 1) * 10 ^ Z.of_nat (length s).
Proof.
  induction s as [|c s IH]; intros n Hn Hd.
  - change (digitsAcc n []) with n. simpl. lia.
  - simpl in Hd. apply andb_true_iff in Hd as [Hc Hs]. apply isDigit_spec in Hc.
    rewrite digitsAcc_cons. cbn [length].
    rewrite Nat2Z.inj_succ, Z.pow_succ_r by lia.
    specialize (IH (n * 10 + (code c - 48)) ltac:(lia) Hs).
    pose proof (Z.pow_pos_nonneg 10 (Z.of_nat (length s)) ltac:(lia) ltac:(lia)).
    nia.
Qed.

Lemma digitsAcc_inj s : forall t n m,
  allDigits s = true -> allDigits t = true -> length s = length t ->
  0 <= n -> 0 <= m -> digitsAcc n s = digitsAcc m t -> n = m /\ s = t.
Proof.
  induction s as [|c s IH]; intros [|d t] n m Hs Ht Hlen Hn Hm Heq; try discriminate.
  - now split.
  - simpl in Hs, Ht.
    apply andb_true_iff in Hs as [Hc Hs]. apply andb_true_iff in Ht as [Hd Ht].
    apply isDigit_spec in Hc, Hd. rewrite !digitsAcc_cons in Heq.
    destruct (IH t (n * 10 + (code c - 48)) (m * 10 + (code d - 48)) Hs Ht
                 ltac:(simpl in Hlen; lia) ltac:(lia) ltac:(lia) Heq)
      as [Hnm ->].
    assert (code c = code d) by lia.
    split; [lia|]. f_equal. now apply code_inj.
Qed.

(* a numeral without leading zero has as many digits as its value needs *)
Lemma canonical_length s :
  allDigits s = true -> noLeadingZero s = true -> 1 <= digitsVal s ->
  10 ^ (Z.of_nat (length s) - 1) <= digitsVal s < 10 ^ Z.of_nat (length s).
Proof.
  intros Hd Hz Hv. destruct s as [|c s]; [discriminate|].
  simpl in Hd. apply andb_true_iff in Hd as [Hc Hs]. apply isDigit_spec in Hc.
  unfold digitsVal in *. rewrite digitsAcc_cons in *. cbn [length].
  replace (Z.of_nat (S (length s)) - 1) with (Z.of_nat (length s)) by lia.
  rewrite Nat2Z.inj_succ, Z.pow_succ_r by lia.
  pose proof (digitsAcc_bounds s (0 * 10 + (code c - 48)) ltac:(lia) Hs) as Hb.
  pose proof (Z.pow_pos_nonneg 10 (Z.of_nat (length s)) ltac:(lia) ltac:(lia)).
  assert (1 <= code c - 48).
  { destruct s as [|c' s].
    - change (digitsAcc (0 * 10 + (code c - 48)) []) with (0 * 10 + (code c - 48)) in Hv. lia.
    - cbn [noLeadingZero] in Hz.
      destruct (Z.eqb_spec (code c) 48); [discriminate | lia]. }
  nia.
Qed.

Lemma canonical_unique s t :
  allDigits s = true -> allDigits t = true ->
  noLeadingZero s = true -> noLeadingZero t = true ->
  digitsVal s = digitsVal t -> s = t.
Proof.
  intros Hs Ht Hzs Hzt Heq.
  assert (Hlen : length s = length t).
  { destruct (Z_lt_ge_dec (digitsVal s) 1) as [Hlt|Hge].
    - (* the value is 0: both are the one digit 0 *)
      assert (Hone : forall u, allDigits u = true -> noLeadingZero u = true ->
                               digitsVal u < 1 -> length u = 1%nat).
      { intros [|c [|c' u]] Hu Hzu Hvu; [discriminate | reflexivity |].
        exfalso. simpl in Hu.
        apply andb_true_iff in Hu as [Hc Hu]. apply isDigit_spec in Hc.
        cbn [noLeadingZero] in Hzu.
        destruct (Z.eqb_spec (code c) 48); [discriminate|].
        unfold digitsVal in Hvu. rewrite digitsAcc_cons in Hvu.
        pose proof (digitsAcc_ge (c' :: u) (0 * 10 + (code c - 48)) ltac:(lia) Hu).
        lia. }
      rewrite (Hone s), (Hone t); auto; lia.
    - pose proof (canonical_length s Hs Hzs ltac:(lia)) as [L1 U1].
      pose proof (canonical_length t Ht Hzt ltac:(lia)) as [L2 U2].
      rewrite Heq in *.
      destruct (Nat.lt_trichotomy (length s) (length t)) as [Hlt|[Heq'|Hgt]];
        [exfalso | assumption | exfalso].
      + pose proof (Z.pow_le_mono_r 10 (Z.of_nat (length s)) (Z.of_nat (length t) - 1)
                      ltac:(lia) ltac:(lia)). lia.
      + pose proof (Z.pow_le_mono_r 10 (Z.of_nat (length t)) (Z.of_nat (length s) - 1)
                      ltac:(lia) ltac:(lia)). lia. }
  now destruct (digitsAcc_inj s t 0 0 Hs Ht Hlen ltac:(lia) ltac:(lia) Heq).
Qed.

(** X12: the round trip in the other direction: on a valid decimal without
    leading zero, String of the value ParseString returns is the input. *)
Theorem String_ParseString (s : gostring) :
  validDecimal s = true -> noLeadingZero s = true ->
  String_ (fst (ParseString s)) = s.
Proof.
  intros Hv Hz. rewrite (ParseString_ok s Hv). cbn [fst].
  apply validDecimal_spec in Hv as (_ & Hd & _).
  assert (H0 : 0 <= digitsVal s) by (apply (digitsAcc_ge s 0); [lia | assumption]).
  destruct (String_decimal (digitsVal s) H0) as (Hd' & Hv' & Hz').
  now apply canonical_unique.
Qed.

Lemma String_ParseString_witness :
  String_ (fst (ParseString (bytes_of "175928847299117209")))
  = bytes_of "175928847299117209".
Proof.
  apply (String_ParseString (bytes_of "175928847299117209")); reflexivity.
Defined.

(** X13: the decimal string of a 64-bit value has between 1 and 20 bytes, so
    the output of MarshalJSON has between 3 and 22. *)
Theorem String_length (isPrintTables : Z -> bool) (v : Snowflake) :
  is_uint64 v ->
  (1 <= length (String_ v) <= 20)%nat /\
  (3 <= length (fst (MarshalJSON isPrintTables v)) <= 22)%nat.
Proof.
  intros [H0 H1].
  destruct (String_decimal v H0) as (Hd & Hv & Hz).
  assert (Hlen : (1 <= length (String_ v) <= 20)%nat).
  { split.
    - destruct (String_ v); [discriminate | simpl; lia].
    - destruct (Z_lt_ge_dec v 1) as [Hlt|Hge].
      + replace v with 0 by lia. vm_compute. lia.
      + pose proof (canonical_length (String_ v) Hd Hz ltac:(lia)) as [L _].
        rewrite Hv in L.
        destruct (le_lt_dec (length (String_ v)) 20) as [Hle|Hgt]; [assumption|].
        exfalso.
        pose proof (Z.pow_le_mono_r 10 20 (Z.of_nat (length (String_ v)) - 1)
                      ltac:(lia) ltac:(lia)).
        lia. }
  split; [assumption|].
  unfold MarshalJSON. cbn [fst]. fold (String_ v).
  rewrite Quote_digits by assumption.
  cbn [length]. rewrite length_app. cbn [length]. lia.
Qed.

Lemma String_length_witness :
  (1 <= length (String_ 18446744073709551615%Z) <= 20)%nat.
Proof.
  apply (String_length (fun _ => false) 18446744073709551615).
  unfold is_uint64. lia.
Defined.

(** ** The JSON codec *)

Lemma quoted_literal ds :
  isLiteral (dquote :: ds ++ [dquote]) = true -> ds = [byte 48].
Proof.
  intros H. apply isLiteral_spec in H as [H | [H | H]].
  - discriminate.
  - discriminate.
  - unfold JSON_ZERO_QUOTED in H. injection H as H.
    change [byte 48; byte 34] with ([byte 48] ++ [byte 34]) in H.
    now apply app_inj_tail in H as [H _].
Qed.

Lemma digits_literal ds :
  allDigits ds = true -> isLiteral ds = true -> ds = [byte 48].
Proof.
  intros Hd H. apply isLiteral_spec in H as [H | [H | H]]; subst ds.
  - discriminate.
  - reflexivity.
  - discriminate.
Qed.

Lemma ParseJSON_quoted_eq cfg ds :
  validDecimal ds = true ->
  ParseJSON cfg (dquote :: ds ++ [dquote]) = (digitsVal ds, None).
Proof.
  intros Hv. rewrite ParseJSON_unfold.
  destruct (isLiteral (dquote :: ds ++ [dquote])) eqn:Hlit.
  - now rewrite (quoted_literal ds Hlit).
  - pose proof Hv as Hv'. apply validDecimal_spec in Hv' as (_ & Hd & _).
    rewrite Unquote_quoted_digits by assumption.
    now apply ParseString_ok.
Qed.

(** X14: a valid decimal between double quotes parses to the value it
    denotes, whatever AllowUnquoted is. *)
Theorem ParseJSON_quoted (cfg : Config) (ds : gostring) :
  validDecimal ds = true ->
  ParseJSON cfg (dquote :: ds ++ [dquote]) = (digitsVal ds, None).
Proof. apply ParseJSON_quoted_eq. Qed.

Lemma ParseJSON_quoted_witness :
  ParseJSON defaultConfig (dquote :: bytes_of "0042" ++ [dquote]) = (42, None).
Proof. apply (ParseJSON_quoted defaultConfig (bytes_of "0042")). reflexivity. Defined.

(** X15: a bare valid decimal parses to the value it denotes when
    AllowUnquoted is set; when it is not set, the bare 0 still parses and
    every other bare valid decimal is refused with an UnquotedIntegerError
    wrapping ErrSyntax. *)
Theorem ParseJSON_bare (cfg : Config) (ds : gostring) :
  validDecimal ds = true ->
  ParseJSON cfg ds
  = if AllowUnquoted cfg || bytes_Equal ds JSON_ZERO then (digitsVal ds, None)
    else (0, Some (UnquotedIntegerError
                     (mkSnowflakeError
                        "unquoted integer but unquoted integers are not allowed"
                        (causeErr Strconv.ErrSyntax)))).
Proof.
  intros Hv. rewrite ParseJSON_unfold.
  pose proof Hv as Hv'. apply validDecimal_spec in Hv' as (_ & Hd & _).
  destruct (isLiteral ds) eqn:Hlit.
  - rewrite (digits_literal ds Hd Hlit). now destruct (AllowUnquoted cfg).
  - destruct (validDecimal_head ds Hv) as (c & t & -> & Hc).
    rewrite Unquote_bare by assumption.
    assert (Hz : bytes_Equal (c :: t) JSON_ZERO = false).
    { destruct (bytes_Equal (c :: t) JSON_ZERO) eqn:E; [| reflexivity].
      unfold isLiteral in Hlit. rewrite E in Hlit.
      now rewrite orb_true_r in Hlit. }
    rewrite Hz, orb_false_r.
    destruct (AllowUnquoted cfg); [now apply ParseString_ok | reflexivity].
Qed.

Lemma ParseJSON_bare_witness :
  ParseJSON (mkConfig false 1420070400000) (bytes_of "42")
  = (0, Some (UnquotedIntegerError
                (mkSnowflakeError
                   "unquoted integer but unquoted integers are not allowed"
                   (causeErr Strconv.ErrSyntax)))).
Proof.
  apply (ParseJSON_bare (mkConfig false 1420070400000) (bytes_of "42")). reflexivity.
Defined.

Section JSONRoundTrip.

Variable isPrintTables : Z -> bool.

Lemma ParseJSON_Marshal_eq cfg v :
  is_uint64 v -> ParseJSON cfg (fst (MarshalJSON isPrintTables v)) = (v, None).
Proof.
  intros Hv.
  destruct (String_decimal v (proj1 Hv)) as (Hd & Hval & _).
  unfold MarshalJSON. cbn [fst]. fold (String_ v).
  rewrite Quote_digits by assumption.
  rewrite ParseJSON_quoted_eq by now apply String_valid.
  now rewrite Hval.
Qed.

(** X16: the JSON round trip: ParseJSON reads the output of MarshalJSON back
    to the same 64-bit value in either mode, and UnmarshalJSON stores it
    whatever the target held. *)
Theorem ParseJSON_MarshalJSON (cfg : Config) (target v : Snowflake) :
  is_uint64 v ->
  ParseJSON cfg (fst (MarshalJSON isPrintTables v)) = (v, None) /\
  UnmarshalJSON cfg target (fst (MarshalJSON isPrintTables v)) = (v, None).
Proof.
  intros Hv. pose proof (ParseJSON_Marshal_eq cfg v Hv) as Hp.
  split; [exact Hp|].
  unfold UnmarshalJSON. now rewrite Hp.
Qed.

End JSONRoundTrip.

Lemma ParseJSON_MarshalJSON_witness :
  ParseJSON defaultConfig (fst (MarshalJSON (fun _ => false) 1363292549053284505))
  = (1363292549053284505, None).
Proof.
  apply (ParseJSON_MarshalJSON (fun _ => false) defaultConfig 0 1363292549053284505).
  unfold is_uint64. lia.
Defined.

(** X17: setting AllowUnquoted only adds accepted inputs: an input that
    parses with the flag off parses to the same result with the flag on. *)
Theorem AllowUnquoted_extends (e1 e2 : Z) (b : gostring) :
  snd (ParseJSON (mkConfig false e1) b) = None ->
  ParseJSON (mkConfig true e2) b = ParseJSON (mkConfig false e1) b.
Proof.
  rewrite !ParseJSON_unfold. cbn [AllowUnquoted].
  destruct (isLiteral b); [reflexivity|].
  destruct (Strconv.Unquote b) as [s [e|]]; [discriminate | reflexivity].
Qed.

Lemma AllowUnquoted_extends_witness :
  ParseJSON (mkConfig true 0) (dquote :: bytes_of "10" ++ [dquote])
  = ParseJSON (mkConfig false 0) (dquote :: bytes_of "10" ++ [dquote]).
Proof.
  apply (AllowUnquoted_extends 0 0 (dquote :: bytes_of "10" ++ [dquote])). reflexivity.
Defined.

Lemma digitsVal_nonneg s : allDigits s = true -> 0 <= digitsVal s.
Proof. intros Hd. apply (digitsAcc_ge s 0); [lia | assumption]. Qed.

Lemma ParseString_range s :
  is_uint64 (fst (ParseString s)) /\
  (snd (ParseString s) <> None -> fst (ParseString s) = 0).
Proof.
  rewrite ParseString_eq.
  destruct (validDecimal s) eqn:Hv; cbn [fst snd].
  - apply validDecimal_spec in Hv as (_ & Hd & Hmax).
    pose proof (digitsVal_nonneg s Hd). unfold is_uint64, maxUint64 in *.
    split; [lia | congruence].
  - unfold is_uint64. split; [lia | reflexivity].
Qed.

(** X18: whatever the input, the value ParseJSON returns fits in 64 bits,
    and it is 0 whenever an error is returned; the same holds for
    ParseString. *)
Theorem ParseJSON_range (cfg : Config) (b : gostring) :
  (is_uint64 (fst (ParseJSON cfg b)) /\
   (snd (ParseJSON cfg b) <> None -> fst (ParseJSON cfg b) = 0)) /\
  (is_uint64 (fst (ParseString b)) /\
   (snd (ParseString b) <> None -> fst (ParseString b) = 0)).
Proof.
  split; [| apply ParseString_range].
  rewrite ParseJSON_unfold.
  destruct (isLiteral b).
  - cbn [fst snd]. unfold is_uint64. split; [lia | reflexivity].
  - destruct (Strconv.Unquote b) as [s [e|]]; [| apply ParseString_range].
    destruct (AllowUnquoted cfg); [apply ParseString_range|].
    cbn [fst snd]. unfold is_uint64. split; [lia | reflexivity].
Qed.

Lemma ParseJSON_range_witness :
  fst (ParseJSON defaultConfig (bytes_of "18446744073709551616")) = 0.
Proof.
  apply (proj1 (ParseJSON_range defaultConfig (bytes_of "18446744073709551616"))).
  vm_compute. discriminate.
Defined.

(** ** The wrappers *)

(** X19: MustParseString returns the denoted value on a valid decimal and
    panics with a StringParseError on every other string; MustParseJSON
    returns exactly on the inputs ParseJSON accepts, and so never panics on
    the output of MarshalJSON. *)
Theorem Must_spec (isPrintTables : Z -> bool) (cfg : Config)
        (s b : gostring) (v : Snowflake) :
  (if validDecimal s then MustParseString s = Returns (digitsVal s)
   else exists se, MustParseString s = Panics (StringParseError se)) /\
  ((exists r, MustParseJSON cfg b = Returns r) <-> accepts cfg b) /\
  (is_uint64 v -> MustParseJSON cfg (fst (MarshalJSON isPrintTables v)) = Returns v).
Proof.
  split; [| split].
  - unfold MustParseString. rewrite ParseString_eq.
    destruct (validDecimal s); eauto.
  - rewrite <- ParseJSON_ok_iff. unfold MustParseJSON.
    destruct (ParseJSON cfg b) as [r [e|]]; cbn [snd]; split.
    + intros [r' H]. discriminate.
    + discriminate.
    + reflexivity.
    + eauto.
  - intros Hv. unfold MustParseJSON.
    now rewrite (ParseJSON_Marshal_eq isPrintTables cfg v Hv).
Qed.

Lemma Must_spec_witness :
  accepts defaultConfig (bytes_of "12") /\
  MustParseJSON defaultConfig (fst (MarshalJSON (fun _ => false) 7)) = Returns 7.
Proof.
  split.
  - apply (proj1 (proj1 (proj2 (Must_spec (fun _ => false) defaultConfig
                                  (bytes_of "-1") (bytes_of "12") 7)))).
    exists 12. reflexivity.
  - apply (proj2 (proj2 (Must_spec (fun _ => false) defaultConfig
                           (bytes_of "-1") (bytes_of "12") 7))).
    unfold is_uint64. lia.
Defined.

(** X20: Parse can fail only on a string, and then exactly when the string
    is not a valid decimal, with a StringParseError; on a uint64 it is the
    identity and on a time it is ParseTime, both without error; MustParse
    panics in the first case only. *)
Theorem Parse_spec (cfg : Config) (a : ParseArg) :
  match a with
  | ArgString s =>
    if validDecimal s
    then Parse cfg a = (digitsVal s, None) /\ MustParse cfg a = Returns (digitsVal s)
    else exists se, Parse cfg a = (0, Some (StringParseError se)) /\
                    MustParse cfg a = Panics (StringParseError se)
  | ArgUint64 v => Parse cfg a = (v, None) /\ MustParse cfg a = Returns v
  | ArgTime t =>
    Parse cfg a = (ParseTime cfg t, None) /\ MustParse cfg a = Returns (ParseTime cfg t)
  end.
Proof.
  destruct a as [s | v | t]; try (split; reflexivity).
  unfold MustParse, Parse. rewrite ParseString_eq.
  destruct (validDecimal s); [split; reflexivity | eauto].
Qed.

(** ** Error texts *)

Lemma Unquote_error s e : snd (Strconv.Unquote s) = Some e -> e = Strconv.ErrSyntax.
Proof.
  unfold Strconv.Unquote.
  destruct (Strconv.unquote s) as [[out rem] err] eqn:Hu.
  destruct (0 <? length rem)%nat; cbn [snd]; [congruence|].
  intros ->. unfold Strconv.unquote in Hu.
  repeat match type of Hu with
         | (if ?c then _ else _) = _ => destruct c
         | match ?x with _ => _ end = _ => destruct x
         end; congruence.
Qed.

Section ErrorTexts.

Variable isPrintTables : Z -> bool.

(** X21: the text of every error the package returns.  A failed ParseString
    reads [unable to parse string as integer (original error:
    strconv.ParseUint: parsing Q: K)] where Q is the input quoted by
    strconv.Quote and K is [value out of range] when the leading digits
    exceed 2^64-1 and [invalid syntax] otherwise; every
    UnquotedIntegerError of ParseJSON reads [unquoted integer but unquoted
    integers are not allowed (original error: invalid syntax)]. *)
Theorem Error_text (cfg : Config) (s b : gostring) :
  (validDecimal s = false ->
   exists e', snd (ParseString s) = Some e' /\
     Error isPrintTables e'
     = bytes_of "unable to parse string as integer (original error: strconv.ParseUint: parsing "
       ++ Strconv.Quote isPrintTables s ++ bytes_of ": "
       ++ (if maxUint64 <? digitsVal (digitPrefix s)
           then bytes_of "value out of range" else bytes_of "invalid syntax")
       ++ bytes_of ")") /\
  (forall se, snd (ParseJSON cfg b) = Some (UnquotedIntegerError se) ->
     Error isPrintTables (UnquotedIntegerError se)
     = bytes_of ("unquoted integer but unquoted integers are not allowed"
                 ++ " (original error: invalid syntax)")).
Proof.
  split.
  - intros Hv. rewrite ParseString_eq, Hv. cbn [snd].
    eexists. split; [reflexivity|].
    unfold Error, SnowflakeError_Error, cause_Error, NumError_Error.
    cbn [message err Strconv.Func Strconv.Num Strconv.Err_].
    destruct (maxUint64 <? digitsVal (digitPrefix s));
      cbn [Err_Error]; rewrite <- !app_assoc; reflexivity.
  - intros se He. rewrite ParseJSON_unfold in He.
    destruct (isLiteral b); [discriminate|].
    destruct (Strconv.Unquote b) as [u [ue|]] eqn:Hu.
    + pose proof (Unquote_error b ue ltac:(now rewrite Hu)) as ->.
      destruct (AllowUnquoted cfg).
      * apply ParseString_err in He as [se' He]. discriminate.
      * cbn [snd] in He. injection He as <-. reflexivity.
    + apply ParseString_err in He as [se' He]. discriminate.
Qed.

End ErrorTexts.

Lemma Error_text_witness :
  exists e', snd (ParseString (bytes_of "-1")) = Some e' /\
    Error (fun _ => false) e'
    = bytes_of "unable to parse string as integer (original error: strconv.ParseUint: parsing "
      ++ Strconv.Quote (fun _ => false) (bytes_of "-1") ++ bytes_of ": "
      ++ bytes_of "invalid syntax" ++ bytes_of ")".
Proof.
  apply (proj1 (Error_text (fun _ => false) defaultConfig (bytes_of "-1") [])).
  reflexivity.
Defined.
